(** * Azure-Cognitive-Search-Azure-OpenAI-Accelerator: notebooks 08 and 09

    A shallow embedding of the executable cells of
    [08-SQLDB_QA.ipynb] (CSV to SQL loader) and [09-BingChatClone.ipynb]
    (Bing search tool, stream consumer, blocking invoke), together with
    the agent loop those notebooks instantiate.

    Python integers are [Z]; Python lists are [list]; dictionaries are
    [gmap string _] when only membership matters and association lists
    when the iteration order does; [stdout] is a list of printed lines
    threaded through the code. *)

From Stdlib Require Import ZArith Lia Ascii.
From stdpp Require Import base option list gmap strings.

Local Open Scope Z_scope.

(** ** Notebook 08, cell 14 (second half): batched insertion *)

Module SqlLoad.

Section Insert.
Context {Row : Type}.

(** [df[lower:upper]] for the non-negative bounds the loop produces:
    rows with index in [[lower, min upper (len df))], none when
    [upper <= lower]. *)
Definition df_slice (df : list Row) (lower upper : Z) : list Row :=
  take (Z.to_nat (upper - lower)) (drop (Z.to_nat lower) df).

(** [df.shape[0]] *)
Definition shape0 (df : list Row) : Z := Z.of_nat (length df).

(** The variables of the loop, the SQL table (rows appended by
    [to_sql(..., if_exists='append')]), the frames handed to [to_sql]
    and the bounds printed after each call. *)
Record loop_state := LoopState {
  lower : Z;
  upper : Z;
  table : list Row;
  to_sql_calls : list (list Row);
  printed : list (Z * Z)
}.

(** lower = 0; upper = 1000 *)
Definition init_state : loop_state :=
  {| lower := 0; upper := 1000; table := []; to_sql_calls := [];
     printed := [] |}.

(** One pass through the body of [while lower < limit]; [to_sql] is
    taken to succeed (an exception would leave the loop through the
    surrounding [try]). *)
Definition loop_body (df : list Row) (limit : Z) (st : loop_state)
  : loop_state :=
  let batch := df_slice df (lower st) (upper st) in
  {| lower := upper st;
     upper := Z.min (upper st + 1000) limit;
     table := table st ++ batch;
     to_sql_calls := to_sql_calls st ++ [batch];
     printed := printed st ++ [(lower st, upper st)] |}.

(** The [while] loop; [None] when the fuel runs out before the
    condition becomes false. *)
Fixpoint while_loop (fuel : nat) (df : list Row) (limit : Z)
    (st : loop_state) : option loop_state :=
  if decide (lower st < limit) then
    match fuel with
    | O => None
    | S fuel' => while_loop fuel' df limit (loop_body df limit st)
    end
  else Some st.

(** limit = df.shape[0], then the loop from the initial variables. *)
Definition insert_rows (fuel : nat) (df : list Row) : option loop_state :=
  while_loop fuel df (shape0 df) init_state.

(** The claim's reading of the batches: slice number [k] is
    [[1000k, min (1000(k+1)) n)], for [k] below [ceil (n / 1000)]. *)
Definition batch_count (n : Z) : nat := Z.to_nat ((n + 999) / 1000).

Definition expected_batch (df : list Row) (k : nat) : list Row :=
  df_slice df (1000 * Z.of_nat k)
           (Z.min (1000 * (Z.of_nat k + 1)) (shape0 df)).

Definition expected_batches (df : list Row) : list (list Row) :=
  expected_batch df <$> seq 0 (batch_count (shape0 df)).

(** Where the loop stands after [k] passes. *)
Definition loop_inv (df : list Row) (k : nat) (st : loop_state) : Prop :=
  to_sql_calls st = expected_batch df <$> seq 0 k
  ∧ table st = take (Z.to_nat (lower st)) df
  ∧ 0 <= lower st
  ∧ ((lower st = 1000 * Z.of_nat k
      ∧ lower st < shape0 df
      ∧ lower st < upper st <= lower st + 1000
      ∧ (upper st = lower st + 1000 ∨ upper st = shape0 df))
     ∨ (shape0 df <= lower st ∧ k = batch_count (shape0 df))).

Lemma df_slice_clamp (df : list Row) lo hi :
  0 <= lo -> df_slice df lo hi = df_slice df lo (Z.min hi (shape0 df)).
Proof.
  intros Hlo. unfold df_slice, shape0.
  destruct (Z.le_gt_cases hi (Z.of_nat (length df))) as [H|H].
  - by rewrite Z.min_l.
  - rewrite Z.min_r by lia.
    rewrite !take_ge; [done | |]; rewrite length_drop; lia.
Qed.

Lemma take_df_slice (df : list Row) lo hi :
  0 <= lo <= hi ->
  take (Z.to_nat lo) df ++ df_slice df lo hi = take (Z.to_nat hi) df.
Proof.
  intros H. unfold df_slice.
  replace (Z.to_nat hi) with (Z.to_nat lo + Z.to_nat (hi - lo))%nat by lia.
  by rewrite take_take_drop.
Qed.

Lemma batch_count_between n k :
  1000 * Z.of_nat k < n <= 1000 * (Z.of_nat k + 1) ->
  batch_count n = S k.
Proof.
  intros H. unfold batch_count.
  assert ((n + 999) / 1000 = Z.of_nat k + 1) as ->; [|lia].
  symmetry. apply Z.div_unique with (r := n + 999 - 1000 * (Z.of_nat k + 1)); lia.
Qed.

Lemma loop_inv_init (df : list Row) : loop_inv df 0 init_state.
Proof.
  unfold loop_inv, init_state; simpl. split_and!; [done..|].
  destruct (decide (0 < shape0 df)).
  - left. lia.
  - right. unfold shape0 in *.
    assert (length df = 0%nat) as -> by lia. done.
Qed.

Lemma loop_inv_body (df : list Row) k st :
  loop_inv df k st -> lower st < shape0 df ->
  loop_inv df (S k) (loop_body df (shape0 df) st).
Proof.
  intros (Hcalls & Htab & Hlo & [(Hk & _ & Hup & Hcase)|[? _]]) Hlt; [|lia].
  unfold loop_inv, loop_body; cbn [lower upper table to_sql_calls].
  split_and!.
  - rewrite Hcalls, seq_S, fmap_app. simpl. f_equal. f_equal.
    unfold expected_batch. rewrite <- Hk.
    rewrite (df_slice_clamp df (lower st) (upper st)) by done.
    f_equal. lia.
  - rewrite Htab. apply take_df_slice. lia.
  - lia.
  - destruct (decide (upper st < shape0 df)).
    + left. lia.
    + right. split; [lia|]. symmetry. apply batch_count_between. lia.
Qed.

Lemma while_loop_fuel_mono (df : list Row) limit fuel fuel' st st' :
  (fuel <= fuel')%nat →
  while_loop fuel df limit st = Some st' →
  while_loop fuel' df limit st = Some st'.
Proof.
  revert fuel' st. induction fuel as [|fuel IH]; intros [|fuel'] st Hle; simpl;
    case_decide; try done; try lia.
  apply IH. lia.
Qed.

(** The table is the concatenation of the frames handed to [to_sql]. *)
Lemma calls_concat_table (df : list Row) limit fuel : ∀ st st',
  concat (to_sql_calls st) = table st →
  while_loop fuel df limit st = Some st' →
  concat (to_sql_calls st') = table st'.
Proof.
  induction fuel as [|fuel IH]; intros st st' Hc; simpl; case_decide;
    try done; try congruence.
  apply IH. unfold loop_body; simpl.
  rewrite concat_app, Hc. simpl. by rewrite app_nil_r.
Qed.

Lemma while_loop_inv (df : list Row) fuel : ∀ k st,
  loop_inv df k st ->
  shape0 df - lower st < Z.of_nat fuel ->
  ∃ st', while_loop fuel df (shape0 df) st = Some st'
         ∧ loop_inv df (batch_count (shape0 df)) st'
         ∧ shape0 df <= lower st'.
Proof.
  induction fuel as [|fuel IH]; intros k st Hinv Hfuel; simpl.
  - case_decide; [lia|]. exists st. split; [done|].
    destruct Hinv as (? & ? & ? & [?|[? ->]]); [lia|].
    split; [|lia]. unfold loop_inv. split_and!; auto.
  - case_decide.
    + apply (IH (S k)); [by apply loop_inv_body|].
      destruct Hinv as (_ & _ & _ & [?|?]); simpl; lia.
    + exists st. split; [done|].
      destruct Hinv as (? & ? & ? & [?|[? ->]]); [lia|].
      split; [|lia]. unfold loop_inv. split_and!; auto.
Qed.

(** C9. For a dataframe of [n] rows the loop stops (any fuel above [n]
    is enough), the table then holds the rows of the dataframe, each
    once and in order; the frames handed to [to_sql] are the slices
    [[0,1000)], [[1000,2000)], ... the last one ending at row [n] (for
    [n < 1000] the bound written in the slice is 1000 and the frame
    still ends at row [n]); and nothing is inserted when [n = 0]. *)
Theorem insert_rows_batches (df : list Row) :
  ∃ st, (∀ fuel, (length df < fuel)%nat → insert_rows fuel df = Some st)
        ∧ table st = df
        ∧ to_sql_calls st = expected_batches df
        ∧ concat (to_sql_calls st) = df
        ∧ length (to_sql_calls st) = batch_count (shape0 df)
        ∧ (df = [] → to_sql_calls st = []).
Proof.
  destruct (while_loop_inv df (S (length df)) 0 init_state) as (st & Hrun & Hinv & Hex).
  { apply loop_inv_init. }
  { unfold shape0; simpl; lia. }
  exists st.
  assert (Hfuel : ∀ fuel, (length df < fuel)%nat → insert_rows fuel df = Some st).
  { intros fuel Hf.
    destruct (while_loop_inv df fuel 0 init_state) as (st2 & Hrun2 & _).
    { apply loop_inv_init. }
    { unfold shape0; simpl; lia. }
    unfold insert_rows. rewrite Hrun2. f_equal.
    eapply while_loop_fuel_mono in Hrun2; [|apply Nat.le_max_l].
    eapply while_loop_fuel_mono in Hrun; [|apply Nat.le_max_r].
    rewrite Hrun in Hrun2. congruence. }
  destruct Hinv as (Hcalls & Htab & Hlo & _).
  assert (Htable : table st = df).
  { rewrite Htab. apply take_ge. unfold shape0 in Hex. lia. }
  split_and!.
  - exact Hfuel.
  - exact Htable.
  - exact Hcalls.
  - etrans; [|exact Htable].
    by apply (calls_concat_table df (shape0 df) (S (length df)) init_state).
  - rewrite Hcalls. by rewrite length_fmap, length_seq.
  - intros ->. rewrite Hcalls. done.
Qed.
End Insert.

(** The notebook's own run: 20780 rows go in as 21 frames. *)
Example batch_count_notebook : batch_count 20780 = 21%nat.
Proof. reflexivity. Qed.

Example insert_rows_2500 :
  (to_sql_calls <$> insert_rows 4 (seq 0 2500))
  = Some [seq 0 1000; seq 1000 1000; seq 2000 500].
Proof. vm_compute. reflexivity. Qed.

Example insert_rows_500_printed :
  (printed <$> insert_rows 2 (seq 0 500)) = Some [(0, 1000)].
Proof. vm_compute. reflexivity. Qed.

End SqlLoad.

(** ** Notebook 08, cell 14 (first half): the CREATE TABLE statement *)

Module CreateTable.

(** table_name = 'covidtracking' *)
Definition table_name : string := "covidtracking".

(** A column is its name and the name of its dtype, the string each
    [dtype == '...'] test compares with. *)
Definition column : Type := string * string.

(** [d[k] = v] on an insertion-ordered dict: an existing key keeps its
    place and takes the new value, a new key goes to the end. *)
Fixpoint dict_set (d : list column) (k v : string) : list column :=
  match d with
  | [] => [(k, v)]
  | (k', v') :: d' =>
      if decide (k' = k) then (k', v) :: d' else (k', v') :: dict_set d' k v
  end.

(** [df.dtypes.to_dict()], from the (name, dtype) pairs in column order. *)
Definition to_dict (cols : list column) : list column :=
  fold_left (λ d c, dict_set d c.1 c.2) cols [].

(** [s[:-2]] *)
Definition drop_last2 (s : string) : string :=
  String.substring 0 (String.length s - 2) s.

(** The [if]/[elif] chain of the loop body, on the statement so far. *)
Definition add_column (sql : string) (c : column) : string :=
  let name := c.1 in
  let dtype := c.2 in
  if decide (dtype = "object") then sql +:+ (name +:+ " VARCHAR(MAX), ")
  else if decide (dtype = "int64") then sql +:+ (name +:+ " INT, ")
  else if decide (dtype = "float64") then sql +:+ (name +:+ " FLOAT, ")
  else if decide (dtype = "bool") then sql +:+ (name +:+ " BIT, ")
  else if decide (dtype = "datetime64[ns]") then sql +:+ (name +:+ " DATETIME, ")
  else sql.

(** The statement: the header, the loop over [column_types.items()],
    then [create_table_sql[:-2] + ")"]. *)
Definition create_table_sql (cols : list column) : string :=
  let sql := fold_left add_column (to_dict cols)
                       ("CREATE TABLE " +:+ table_name +:+ " (") in
  drop_last2 sql +:+ ")".

(** The claim's table of dtypes and SQL types. *)
Definition sql_type (dtype : string) : option string :=
  if decide (dtype = "object") then Some "VARCHAR(MAX)"
  else if decide (dtype = "int64") then Some "INT"
  else if decide (dtype = "float64") then Some "FLOAT"
  else if decide (dtype = "bool") then Some "BIT"
  else if decide (dtype = "datetime64[ns]") then Some "DATETIME"
  else None.

(** The declaration of a column, when its dtype is in the table. *)
Definition declaration (c : column) : option string :=
  (λ ty, c.1 +:+ " " +:+ ty) <$> sql_type c.2.

(** One declaration per column with a listed dtype, in column order. *)
Definition declarations (cols : list column) : list string :=
  omap declaration cols.

(** [sep.join(l)] *)
Fixpoint join (sep : string) (l : list string) : string :=
  match l with
  | [] => ""
  | [x] => x
  | x :: l' => x +:+ sep +:+ join sep l'
  end.

(** What the loop has appended after the header. *)
Fixpoint appended (ds : list string) : string :=
  match ds with
  | [] => ""
  | d :: ds' => d +:+ ", " +:+ appended ds'
  end.

(** Five listed dtypes and one that is not listed. *)
Definition sample_columns : list column :=
  [("date", "object"); ("death", "int64"); ("rate", "float64");
   ("span", "timedelta64[ns]"); ("ok", "bool"); ("seen", "datetime64[ns]")].

Lemma string_app_cons (x : ascii) (a b : string) :
  String x a +:+ b = String x (a +:+ b).
Proof. reflexivity. Qed.

Lemma string_app_assoc (a b c : string) : (a +:+ b) +:+ c = a +:+ b +:+ c.
Proof.
  induction a as [|x a IH]; [done|]. by rewrite !string_app_cons, IH.
Qed.

Lemma string_app_nil_r (a : string) : a +:+ "" = a.
Proof. induction a as [|x a IH]; [done|]. by rewrite string_app_cons, IH. Qed.

Lemma string_length_app (a b : string) :
  String.length (a +:+ b) = (String.length a + String.length b)%nat.
Proof.
  induction a as [|x a IH]; [done|]. rewrite string_app_cons. simpl.
  by rewrite IH.
Qed.

Lemma substring_prefix (a b : string) :
  String.substring 0 (String.length a) (a +:+ b) = a.
Proof.
  induction a as [|x a IH].
  - by destruct b.
  - rewrite string_app_cons. simpl. by rewrite IH.
Qed.

Lemma drop_last2_sep (a : string) : drop_last2 (a +:+ ", ") = a.
Proof.
  unfold drop_last2. rewrite string_length_app. simpl.
  replace (String.length a + 2 - 2)%nat with (String.length a) by lia.
  apply substring_prefix.
Qed.

Lemma appended_join (d : string) (ds : list string) :
  appended (d :: ds) = join ", " (d :: ds) +:+ ", ".
Proof.
  revert d. induction ds as [|d' ds IH]; intros d.
  - simpl. by rewrite string_app_nil_r.
  - change (appended (d :: d' :: ds)) with (d +:+ ", " +:+ appended (d' :: ds)).
    rewrite IH.
    change (join ", " (d :: d' :: ds)) with (d +:+ ", " +:+ join ", " (d' :: ds)).
    by rewrite !string_app_assoc.
Qed.

Lemma add_column_declaration (sql : string) (c : column) :
  add_column sql c = sql +:+ appended (option_list (declaration c)).
Proof.
  unfold add_column, declaration, sql_type.
  repeat case_decide; simpl;
    rewrite ?string_app_nil_r, ?string_app_assoc; done.
Qed.

Lemma appended_app (xs ys : list string) :
  appended (xs ++ ys) = appended xs +:+ appended ys.
Proof.
  induction xs as [|x xs IH]; simpl; [done|].
  by rewrite IH, !string_app_assoc.
Qed.

Lemma fold_add_column (cols : list column) : ∀ sql,
  fold_left add_column cols sql = sql +:+ appended (declarations cols).
Proof.
  induction cols as [|c cols IH]; intros sql; simpl.
  - by rewrite string_app_nil_r.
  - rewrite IH, add_column_declaration, string_app_assoc. f_equal.
    unfold declarations. simpl. destruct (declaration c); simpl; [|done].
    by rewrite !string_app_assoc.
Qed.

Lemma dict_set_fresh (d : list column) k v :
  k ∉ d.*1 → dict_set d k v = d ++ [(k, v)].
Proof.
  induction d as [|[k' v'] d IH]; simpl; intros Hk; [done|].
  apply not_elem_of_cons in Hk as [Hne Hk].
  case_decide; [congruence|]. by rewrite IH.
Qed.

Lemma fold_dict_set_fresh (cols : list column) : ∀ d,
  NoDup (d.*1 ++ cols.*1) →
  fold_left (λ d c, dict_set d c.1 c.2) cols d = d ++ cols.
Proof.
  induction cols as [|[k v] cols IH]; intros d Hnd; simpl.
  - by rewrite app_nil_r.
  - rewrite dict_set_fresh.
    + rewrite IH; [by rewrite <- app_assoc|].
      rewrite fmap_app. simpl. by rewrite <- app_assoc.
    + simpl in Hnd. apply NoDup_app in Hnd as (_ & Hd & _).
      intros Hin. apply (Hd k Hin). left.
Qed.

(** [read_csv] hands out distinct column names, and then the dict lists
    the columns as the dataframe does. *)
Lemma to_dict_NoDup (cols : list column) : NoDup cols.*1 → to_dict cols = cols.
Proof. intros H. unfold to_dict. by rewrite fold_dict_set_fresh. Qed.

(** C10. For a dataframe with distinct column names, the statement is the
    header, then one declaration [name TYPE] for each column whose dtype
    is object, int64, float64, bool or datetime64[ns] (VARCHAR(MAX), INT,
    FLOAT, BIT, DATETIME), in column order and separated by [", "], then
    [")"]; columns of any other dtype leave no trace.  With no such
    column there is no declaration at all; the slice [[:-2]] then cuts
    the end of the header. *)
Theorem create_table_sql_declarations (cols : list column) :
  NoDup cols.*1 →
  create_table_sql cols =
    match declarations cols with
    | [] => "CREATE TABLE covidtracking)"
    | ds => "CREATE TABLE covidtracking (" +:+ join ", " ds +:+ ")"
    end.
Proof.
  intros Hnd. unfold create_table_sql. rewrite to_dict_NoDup by done.
  rewrite fold_add_column.
  destruct (declarations cols) as [|d ds].
  - reflexivity.
  - rewrite appended_join, <- string_app_assoc, drop_last2_sep.
    by rewrite string_app_assoc.
Qed.

(** Two columns of the same name would share one entry of the dict. *)
Example to_dict_duplicate :
  to_dict [("a", "int64"); ("b", "bool"); ("a", "object")]
  = [("a", "object"); ("b", "bool")].
Proof. reflexivity. Qed.

Lemma create_table_sql_declarations_witness :
  create_table_sql sample_columns =
    "CREATE TABLE covidtracking (date VARCHAR(MAX), death INT, rate FLOAT, ok BIT, seen DATETIME)".
Proof.
  rewrite (create_table_sql_declarations sample_columns).
  - reflexivity.
  - apply (bool_decide_unpack _). vm_compute. exact I.
Defined.

End CreateTable.

(** ** Notebook 09: the Bing search tool, the stream consumer, invoke *)

Module BingChat.

(** *** Cell 5: [MyBingSearch] *)

(** The tool object; [name] and [description] are class constants. *)
Record MyBingSearch := { k : Z }.

Definition name : string := "Searcher".

(** [BingSearchAPIWrapper(k=...)] *)
Record BingSearchAPIWrapper := { wrapper_k : Z }.

(** Python values passed in a call. *)
Inductive pyval :=
  | PStr (s : string)
  | PInt (z : Z).

(** Binding of a call's positional and keyword arguments to a parameter
    list: positional arguments fill the parameters from the left, each
    remaining parameter is looked up by name; [None] is Python's
    [TypeError] (too many positionals, a parameter given twice or not at
    all, an unknown keyword). *)
Fixpoint bind_keywords (params : list string) (kwargs : gmap string pyval)
    : option (list pyval) :=
  match params with
  | [] => if decide (kwargs = ∅) then Some [] else None
  | p :: params' =>
      v ← kwargs !! p;
      vs ← bind_keywords params' (delete p kwargs);
      Some (v :: vs)
  end.

Fixpoint bind_args (params : list string) (args : list pyval)
    (kwargs : gmap string pyval) : option (list pyval) :=
  match args, params with
  | [], _ => bind_keywords params kwargs
  | _ :: _, [] => None
  | a :: args', p :: params' =>
      match kwargs !! p with
      | Some _ => None
      | None => vs ← bind_args params' args' kwargs; Some (a :: vs)
      end
  end.

(** Modelled from the spec: the parameter list of the library method
    [BingSearchAPIWrapper.results], whose declaration is not in the
    notebook; the tool calls it with the query first and the count as
    [num_results]. *)
Definition results_params : list string := ["query"; "num_results"].

(** A coroutine: it returns, or it is suspended on a job handed to an
    executor and resumes with the job's value. *)
Inductive coro (A : Type) : Type :=
  | Return (a : A)
  | Await {B : Type} (job : unit → B) (resume : B → coro A).
Arguments Return {A} a.
Arguments Await {A B} job resume.

(** The event loop drives a coroutine to its value, running each job
    when the coroutine waits for it. *)
Fixpoint run_until_complete {A : Type} (c : coro A) : A :=
  match c with
  | Return a => a
  | Await job resume => run_until_complete (resume (job tt))
  end.

(** [await loop.run_in_executor(executor, func, arg, ...)] *)
Definition run_in_executor {B : Type} (func : list pyval → B)
    (args : list pyval) : coro B :=
  Await (λ _, func args) Return.

Section Tool.
(** The search service behind [bing.results], as a function of the
    wrapper, the query and the count. *)
Context {R : Type} (results : BingSearchAPIWrapper → string → Z → R).

(** A call of [bing.results] with positional and keyword arguments. *)
Definition call_results (bing : BingSearchAPIWrapper) (args : list pyval)
    (kwargs : gmap string pyval) : option R :=
  match bind_args results_params args kwargs with
  | Some [PStr query; PInt num_results] => Some (results bing query num_results)
  | _ => None
  end.

(** def _run(self, query, run_manager=None) *)
Definition _run (self : MyBingSearch) (query : string) : option R :=
  let bing := {| wrapper_k := k self |} in
  call_results bing [PStr query] {[ "num_results" := PInt (k self) ]}.

(** async def _arun(self, query, run_manager=None) *)
Definition _arun (self : MyBingSearch) (query : string) : coro (option R) :=
  let bing := {| wrapper_k := k self |} in
  run_in_executor (λ args, call_results bing args ∅)
                  [PStr query; PInt (k self)].

(** C7. For every query the asynchronous path, driven to completion,
    returns what the synchronous path returns: the value of
    [results(query, k)] on a wrapper built with the same [k]; and the
    asynchronous path is a suspension on the executor job that makes
    this call. *)
Theorem arun_run_equal (self : MyBingSearch) (query : string) :
  run_until_complete (_arun self query) = _run self query
  ∧ _run self query
    = Some (results {| wrapper_k := k self |} query (k self))
  ∧ ∃ job, _arun self query = Await job Return ∧ job tt = _run self query.
Proof.
  assert (Hrun : _run self query
                 = Some (results {| wrapper_k := k self |} query (k self))).
  { unfold _run, call_results, results_params. simpl.
    rewrite lookup_singleton_ne by done. simpl.
    rewrite lookup_singleton_eq. simpl.
    rewrite delete_singleton_eq. by rewrite decide_True. }
  assert (Harun : call_results {| wrapper_k := k self |}
                    [PStr query; PInt (k self)] ∅ = _run self query).
  { rewrite Hrun. unfold call_results, results_params. simpl.
    rewrite !lookup_empty. simpl. by rewrite decide_True. }
  split_and!.
  - unfold _arun, run_in_executor. simpl. exact Harun.
  - exact Hrun.
  - eexists. split; [reflexivity|]. exact Harun.
Qed.
End Tool.

(** *** Cell 14: the consumer of [agent_executor.astream] *)

(** What the consumer reads of an action: [action.tool] and the text of
    [action.tool_input]. *)
Record AgentAction := { tool : string; tool_input : string }.

Record AgentStep := { action : AgentAction; observation : string }.

(** The values found in a chunk. *)
Inductive value :=
  | VActions (l : list AgentAction)
  | VSteps (l : list AgentStep)
  | VOutput (s : string)
  | VMessages (l : list string).

(** A chunk is a dict with string keys. *)
Abbreviation chunk := (gmap string value).

Inductive exn :=
  | ValueError
  | AttributeError.

(** ["key" in chunk] *)
Definition has_key (key : string) (c : chunk) : bool :=
  bool_decide (is_Some (c !! key)).

(** print(f"Calling Tool: `{action.tool}` with input `{action.tool_input}`") *)
Definition calling_line (a : AgentAction) : string :=
  "Calling Tool: `" +:+ tool a +:+ "` with input `" +:+ tool_input a +:+ "`".

(** [for action in chunk["actions"]: print(...)]: the lines printed, and
    the error of reading [.tool] on the first element that is not an
    action (a step, a character of a string, a message). *)
Definition print_actions (v : value) : list string * option exn :=
  match v with
  | VActions l => (calling_line <$> l, None)
  | VSteps [] | VOutput "" | VMessages [] => ([], None)
  | _ => ([], Some AttributeError)
  end.

(** The loop body on one chunk: the new standard output, and the
    exception raised if any.  Only the first branch reaches
    [print("---")]; the two others [continue]. *)
Definition consume_chunk (c : chunk) (stdout : list string)
    : list string * option exn :=
  match c !! "actions" with
  | Some v =>
      match print_actions v with
      | (lines, None) => (stdout ++ lines ++ ["---"], None)
      | (lines, Some e) => (stdout ++ lines, Some e)
      end
  | None =>
      if has_key "steps" c then (stdout, None)
      else if has_key "output" c then (stdout, None)
      else (stdout, Some ValueError)
  end.

(** [async for chunk in ...]: chunks are taken in the order of the
    stream; an exception ends the loop. *)
Fixpoint consume (chunks : list chunk) (stdout : list string)
    : list string * option exn :=
  match chunks with
  | [] => (stdout, None)
  | c :: chunks' =>
      match consume_chunk c stdout with
      | (stdout', None) => consume chunks' stdout'
      | (stdout', Some e) => (stdout', Some e)
      end
  end.

(** The three event kinds and the key that tags each. *)
Definition event_keys : list string := ["actions"; "steps"; "output"].

(** The event keys a chunk contains. *)
Definition kinds (c : chunk) : list string :=
  filter (λ key, has_key key c) event_keys.

(** A chunk is of exactly one of the three kinds. *)
Definition one_kind (c : chunk) : Prop := length (kinds c) = 1%nat.

Lemma has_key_lookup (key : string) (c : chunk) :
  has_key key c = match c !! key with Some _ => true | None => false end.
Proof.
  unfold has_key. destruct (c !! key).
  - by rewrite bool_decide_true by eauto.
  - by rewrite bool_decide_false by (by intros [? ?]).
Qed.

Lemma consume_chunk_ValueError (c : chunk) (stdout : list string) :
  (consume_chunk c stdout).2 = Some ValueError ↔ kinds c = [].
Proof.
  unfold consume_chunk, kinds, event_keys.
  rewrite !filter_cons, filter_nil, !has_key_lookup.
  destruct (c !! "actions") as [v|]; simpl.
  - split; [|done]. by destruct v as [|[]|[]|[]].
  - destruct (c !! "steps"); simpl; [done|].
    destruct (c !! "output"); simpl; done.
Qed.

(** The [else] branch is taken at the first chunk without an event key,
    and nowhere else. *)
Lemma consume_ValueError (chunks : list chunk) : ∀ stdout,
  (consume chunks stdout).2 = Some ValueError → Exists (λ c, kinds c = []) chunks.
Proof.
  induction chunks as [|c chunks IH]; intros stdout; simpl; [done|].
  destruct (consume_chunk c stdout) as [stdout' [e|]] eqn:Hc; simpl.
  - intros [= ->]. apply Exists_cons_hd.
    apply (consume_chunk_ValueError c stdout). by rewrite Hc.
  - intros H. apply Exists_cons_tl. by apply (IH stdout').
Qed.

(** C6. When every chunk of the stream is of exactly one of the three
    kinds (it has exactly one of the keys "actions", "steps", "output"),
    the consumer never reaches [raise ValueError()]. *)
Theorem consume_no_ValueError (chunks : list chunk) (stdout : list string) :
  Forall one_kind chunks →
  (consume chunks stdout).2 ≠ Some ValueError.
Proof.
  intros Hall Hraise. apply consume_ValueError in Hraise.
  apply Exists_exists in Hraise as (c & Hin & Hnone).
  rewrite Forall_forall in Hall. specialize (Hall c Hin).
  unfold one_kind in Hall. by rewrite Hnone in Hall.
Qed.

(** A stream of one search, its result and the answer, as the library
    sends it: each chunk also carries the key "messages". *)
Definition sample_stream : list chunk :=
  [ {[ "actions" := VActions [ {| tool := "Searcher"; tool_input := "wasps" |} ];
       "messages" := VMessages ["call"] ]};
    {[ "steps" := VSteps [ {| action := {| tool := "Searcher"; tool_input := "wasps" |};
                              observation := "found" |} ];
       "messages" := VMessages ["result"] ]};
    {[ "output" := VOutput "done"; "messages" := VMessages ["done"] ]} ].

Lemma consume_no_ValueError_witness :
  Forall one_kind sample_stream
  ∧ (consume sample_stream []).2 ≠ Some ValueError.
Proof.
  assert (H : Forall one_kind sample_stream).
  { repeat constructor. }
  split; [exact H|]. exact (consume_no_ValueError sample_stream [] H).
Defined.

Example consume_sample_stream :
  consume sample_stream []
  = (["Calling Tool: `Searcher` with input `wasps`"; "---"], None).
Proof. vm_compute. reflexivity. Qed.

(** A chunk with none of the three keys does reach the [else] branch. *)
Example consume_other_chunk :
  consume [ {[ "messages" := VMessages ["?"] ]} ] [] = ([], Some ValueError).
Proof. vm_compute. reflexivity. Qed.

(** *** Cells 15 and 16: the blocking [invoke] and the display of the answer *)

(** A raised Python exception: whether its class derives from
    [Exception] (a [KeyboardInterrupt] does not), and [str(e)]. *)
Record exception := { is_Exception : bool; str : string }.

(** What one executor run did: the steps it had accumulated when it
    ended, and how it ended, with the final answer or by raising.  The
    executor was built with [return_intermediate_steps=True]. *)
Record executor_run := {
  steps_done : list AgentStep;
  ending : string + exception
}.

(** The value bound to [response]. *)
Inductive response :=
  | RDict (output : string) (intermediate_steps : list AgentStep)
  | RStr (s : string).

(** How a cell ends. *)
Inductive cell_end (A : Type) :=
  | Finished (a : A)
  | Uncaught (e : exception).
Arguments Finished {A} a.
Arguments Uncaught {A} e.

(** try: response = agent_executor.invoke(...)
    except Exception as e: response = str(e) *)
Definition invoke_cell (r : executor_run) : cell_end response :=
  match ending r with
  | inl answer => Finished (RDict answer (steps_done r))
  | inr e => if is_Exception e then Finished (RStr (str e)) else Uncaught e
  end.

(** [string.replace("$", "USD ")] *)
Fixpoint replace_dollar (s : string) : string :=
  match s with
  | EmptyString => EmptyString
  | String c s' =>
      if decide (c = "$"%char) then "USD " +:+ replace_dollar s'
      else String c (replace_dollar s')
  end.

(** [printmd(response["output"])]: the text displayed, or the
    [TypeError] of indexing a string with a string. *)
Definition display_cell (resp : response) : option string :=
  match resp with
  | RDict output _ => Some (replace_dollar output)
  | RStr _ => None
  end.

(** The steps a response carries. *)
Definition response_steps (resp : response) : option (list AgentStep) :=
  match resp with
  | RDict _ steps => Some steps
  | RStr _ => None
  end.

(** A run that raises after one recorded step, and one that raises the
    same error before any step. *)
Definition sample_step : AgentStep :=
  {| action := {| tool := "Searcher"; tool_input := "50 USD in EUR" |};
     observation := "0.9068" |}.

Definition sample_error : exception :=
  {| is_Exception := true; str := "Bing request failed" |}.

Definition run_raising_late : executor_run :=
  {| steps_done := [sample_step]; ending := inr sample_error |}.

Definition run_raising_early : executor_run :=
  {| steps_done := []; ending := inr sample_error |}.

Definition run_answering : executor_run :=
  {| steps_done := [sample_step]; ending := inl "45.34 EUR" |}.

(** C8 as stated fails: when the run raises, the caller is left with
    [str(e)] alone; no reading of the response gives back the steps the
    run had accumulated, since two runs with different trails leave the
    same response. *)
Lemma invoke_cell_drops_steps :
  ¬ ∃ trail_of : response → list AgentStep,
      ∀ r resp e, ending r = inr e → invoke_cell r = Finished resp →
                  trail_of resp = steps_done r.
Proof.
  intros [trail_of H].
  pose proof (H run_raising_late (RStr "Bing request failed") sample_error
                eq_refl eq_refl) as H1.
  pose proof (H run_raising_early (RStr "Bing request failed") sample_error
                eq_refl eq_refl) as H2.
  rewrite H1 in H2. discriminate H2.
Qed.

(** C8, amended. A run that returns, or raises an error derived from
    [Exception], leaves the cell with a response: the dict with the
    final answer and all the steps of the run, or the text [str(e)] of
    the error, which carries no steps. *)
Theorem invoke_cell_response (r : executor_run) :
  (∀ e, ending r = inr e → is_Exception e = true) →
  ∃ resp, invoke_cell r = Finished resp
    ∧ match ending r with
      | inl answer => resp = RDict answer (steps_done r)
                      ∧ response_steps resp = Some (steps_done r)
      | inr e => resp = RStr (str e) ∧ response_steps resp = None
      end.
Proof.
  intros Hexc. unfold invoke_cell. destruct (ending r) as [answer|e].
  - eexists. split; [reflexivity|]. done.
  - rewrite (Hexc e eq_refl). eexists. split; [reflexivity|]. done.
Qed.

Lemma invoke_cell_response_witness :
  (∃ resp, invoke_cell run_raising_late = Finished resp
     ∧ resp = RStr "Bing request failed" ∧ response_steps resp = None)
  ∧ (∃ resp, invoke_cell run_answering = Finished resp
     ∧ resp = RDict "45.34 EUR" [sample_step]
     ∧ response_steps resp = Some [sample_step]).
Proof.
  split.
  - apply (invoke_cell_response run_raising_late).
    intros e [= <-]. reflexivity.
  - apply (invoke_cell_response run_answering).
    intros e H. discriminate H.
Defined.

(** An error outside [Exception] is not caught by the cell. *)
Example invoke_cell_interrupt :
  invoke_cell {| steps_done := [];
                 ending := inr {| is_Exception := false; str := "" |} |}
  = Uncaught {| is_Exception := false; str := "" |}.
Proof. reflexivity. Qed.

(** After a caught error the next cell indexes a string. *)
Example display_after_error :
  display_cell (RStr "Bing request failed") = None
  ∧ display_cell (RDict "about $89" []) = Some "about USD 89".
Proof. split; reflexivity. Qed.

End BingChat.

(** ** The agent loop the notebooks instantiate

    Both notebooks build an [AgentExecutor] and call its [astream] and
    [invoke]; the loop itself is not in the notebooks.  It is modelled
    here from sections 3 to 7 of the specification. *)

Module AgentLoop.

(** Modelled from the spec: an Action (section 3), a proposed tool
    invocation with the tool name, the input arguments and an opaque
    invocation identifier. *)
Record Action := {
  tool_name : string;
  arguments : string;
  invocation_id : nat
}.

(** Modelled from the spec: what a Tool's execution returns (section
    4.1), a success payload or a failure signal. *)
Inductive outcome :=
  | Success (payload : string)
  | Failure (description : string).

(** Modelled from the spec: an Observation (section 3), a tool's result
    keyed by the Action's invocation identifier. *)
Record Observation := {
  obs_id : nat;
  obs_outcome : outcome
}.

(** Modelled from the spec: a Step (section 3), one Action with its
    Observation. *)
Definition Step : Type := Action * Observation.

(** Modelled from the spec: a Tool (section 4.1); its name is its key in
    the registry. *)
Record Tool := {
  description : string;
  execute : string → outcome
}.

(** Modelled from the spec: the answer of the Language-Model Client
    (section 4.2): Actions to execute, a terminal answer, or neither. *)
Inductive model_output :=
  | Actions (l : list Action)
  | Answer (text : string)
  | Neither.

(** Modelled from the spec: the two terminal errors (section 7),
    resource exhaustion and protocol error. *)
Inductive terminal_error :=
  | ResourceExhausted
  | ProtocolError.

(** Modelled from the spec: the states of the Agent Loop (section 4.3);
    [DISPATCHING_TOOLS] holds the Actions of the turn that have no
    Observation yet, in issuance order. *)
Inductive phase :=
  | STARTED
  | AWAITING_MODEL
  | DISPATCHING_TOOLS (pending : list Action)
  | DONE (answer : string)
  | FAILED (e : terminal_error).

(** Modelled from the spec: the events of the streaming interface
    (section 6). *)
Inductive event :=
  | ActionIssued (a : Action)
  | ObservationRecorded (s : Step)
  | FinalAnswer (text : string).

(** Modelled from the spec: an AgentRun (section 3): the Step sequence,
    the state of the loop, the number of model invocations so far and
    the events streamed so far. *)
Record AgentRun := {
  state : phase;
  steps : list Step;
  iterations : nat;
  events : list event
}.

(** Modelled from the spec: [STARTED], Question received, empty Step
    sequence. *)
Definition start : AgentRun :=
  {| state := STARTED; steps := []; iterations := 0; events := [] |}.

Definition terminal (r : AgentRun) : Prop :=
  match state r with
  | DONE _ | FAILED _ => True
  | _ => False
  end.

(** The Actions of the current turn still waiting for an Observation. *)
Definition pending_of (r : AgentRun) : list Action :=
  match state r with
  | DISPATCHING_TOOLS pending => pending
  | _ => []
  end.

(** The Actions issued so far, in issuance order. *)
Definition issued (evs : list event) : list Action :=
  omap (λ e, match e with ActionIssued a => Some a | _ => None end) evs.

Section Loop.
(** The Tool Registry, a mapping from names to Tools (section 4.1); the
    Language-Model Client, which is not assumed to repeat itself: its
    answer may depend on the number of the invocation as well as on the
    Step history (section 4.2); the configured maximum iteration count
    (section 4.3). *)
Context (registry : gmap string Tool)
        (model : nat → list Step → model_output)
        (max_iterations : nat).

(** Modelled from the spec: dispatch of one Action (sections 4.1 and
    4.3): the tool is resolved by name; an unknown tool and a failed
    execution both become an Observation carrying an error. *)
Definition dispatch (a : Action) : Observation :=
  {| obs_id := invocation_id a;
     obs_outcome :=
       match registry !! tool_name a with
       | Some t => execute t (arguments a)
       | None => Failure "unknown tool"
       end |}.

(** Modelled from the spec: one transition of the Agent Loop (section
    4.3).  [DONE] and [FAILED] are final.  The Actions of a turn are
    dispatched one after the other in issuance order, which is the order
    section 4.3 fixes for the recorded Steps whatever the order of
    completion.  An answer that is neither Actions nor a final answer
    goes to [FAILED] as in section 4.3; the bounded retries that section
    7 allows for protocol errors are left out. *)
Definition next (r : AgentRun) : AgentRun :=
  match state r with
  | STARTED =>
      {| state := AWAITING_MODEL; steps := steps r;
         iterations := iterations r; events := events r |}
  | AWAITING_MODEL =>
      if decide (max_iterations ≤ iterations r)%nat then
        {| state := FAILED ResourceExhausted; steps := steps r;
           iterations := iterations r; events := events r |}
      else
        match model (iterations r) (steps r) with
        | Actions (a :: l) =>
            {| state := DISPATCHING_TOOLS (a :: l); steps := steps r;
               iterations := S (iterations r);
               events := events r ++ (ActionIssued <$> a :: l) |}
        | Answer text =>
            {| state := DONE text; steps := steps r;
               iterations := S (iterations r);
               events := events r ++ [FinalAnswer text] |}
        | Actions [] | Neither =>
            {| state := FAILED ProtocolError; steps := steps r;
               iterations := S (iterations r); events := events r |}
        end
  | DISPATCHING_TOOLS [] =>
      {| state := AWAITING_MODEL; steps := steps r;
         iterations := iterations r; events := events r |}
  | DISPATCHING_TOOLS (a :: rest) =>
      {| state := DISPATCHING_TOOLS rest;
         steps := steps r ++ [(a, dispatch a)];
         iterations := iterations r;
         events := events r ++ [ObservationRecorded (a, dispatch a)] |}
  | DONE _ | FAILED _ => r
  end.

(** The run after [n] transitions. *)
Definition run_for (n : nat) (r : AgentRun) : AgentRun := Nat.iter n next r.

(** The Step recorded for an Action. *)
Definition step_of (a : Action) : Step := (a, dispatch a).

(** The Observations recorded so far, as streamed. *)
Definition recorded (evs : list event) : list Step :=
  omap (λ e, match e with ObservationRecorded s => Some s | _ => None end) evs.

(** Every Action issued so far has its Step, in issuance order, but for
    the pending ones of the current turn; and each Observation is keyed
    by the identifier of its Action. *)
Definition bookkeeping (r : AgentRun) : Prop :=
  issued (events r) = (steps r).*1 ++ pending_of r
  ∧ Forall (λ s : Step, obs_id s.2 = invocation_id s.1) (steps r).

(** In a stream, the issue of an Action comes before each record of an
    Observation for it. *)
Definition issue_precedes (evs : list event) : Prop :=
  ∀ j s, evs !! j = Some (ObservationRecorded s) →
         ∃ i, (i < j)%nat ∧ evs !! i = Some (ActionIssued s.1).

Definition stream_inv (r : AgentRun) : Prop :=
  issue_precedes (events r)
  ∧ ∀ a, a ∈ pending_of r → ActionIssued a ∈ events r.

(** The model never gives a final answer within the allowed iterations:
    every invocation below the cap returns Actions. *)
Definition never_answers : Prop :=
  ∀ i history, (i < max_iterations)%nat → ∃ a l, model i history = Actions (a :: l).

Definition not_finished_otherwise (r : AgentRun) : Prop :=
  match state r with
  | DONE _ | FAILED ProtocolError => False
  | _ => True
  end.

Lemma run_for_S (n : nat) (r : AgentRun) :
  run_for (S n) r = run_for n (next r).
Proof. unfold run_for. by rewrite Nat.iter_succ_r. Qed.

Lemma run_for_add (n m : nat) (r : AgentRun) :
  run_for (n + m) r = run_for m (run_for n r).
Proof.
  revert r. induction n as [|n IH]; intros r; [done|].
  rewrite Nat.add_succ_l, !run_for_S. apply IH.
Qed.

Lemma issued_app (xs ys : list event) : issued (xs ++ ys) = issued xs ++ issued ys.
Proof. apply omap_app. Qed.

Lemma issued_ActionIssued (l : list Action) : issued (ActionIssued <$> l) = l.
Proof. induction l as [|a l IH]; simpl; [done|]. f_equal. exact IH. Qed.

Lemma bookkeeping_start : bookkeeping start.
Proof. split; [done|]. constructor. Qed.

Lemma bookkeeping_next (r : AgentRun) : bookkeeping r → bookkeeping (next r).
Proof.
  intros [Hiss Hids]. unfold bookkeeping, next, pending_of in *.
  destruct (state r) as [| |[|a rest]| |] eqn:Hst; simpl in *;
    rewrite ?Hst; simpl; try done.
  - case_decide; simpl; [done|].
    destruct (model (iterations r) (steps r)) as [[|a l]| |]; simpl; try done.
    + split; [|done]. rewrite issued_app, Hiss, !app_nil_r.
      f_equal. exact (issued_ActionIssued (a :: l)).
    + split; [|done]. rewrite issued_app, Hiss. simpl.
      by rewrite !app_nil_r.
  - split.
    + rewrite issued_app, Hiss, fmap_app. simpl.
      by rewrite app_nil_r, <- app_assoc.
    + apply Forall_app. split; [done|]. by constructor.
Qed.

Lemma bookkeeping_run_for (n : nat) : bookkeeping (run_for n start).
Proof.
  unfold run_for. induction n as [|n IH]; simpl.
  - apply bookkeeping_start.
  - by apply bookkeeping_next.
Qed.

Lemma steps_next_prefix (r : AgentRun) : steps r `prefix_of` steps (next r).
Proof.
  unfold next. destruct (state r) as [| |[|a rest]| |]; simpl; try done.
  - case_decide; simpl; [done|].
    by destruct (model (iterations r) (steps r)) as [[|a l]| |].
  - by apply prefix_app_r.
Qed.

Lemma steps_run_for_prefix (n : nat) (r : AgentRun) :
  steps r `prefix_of` steps (run_for n r).
Proof.
  revert r. induction n as [|n IH]; intros r; [done|].
  rewrite run_for_S. etrans; [apply steps_next_prefix|apply IH].
Qed.

Lemma recorded_app (xs ys : list event) :
  recorded (xs ++ ys) = recorded xs ++ recorded ys.
Proof. apply omap_app. Qed.

Lemma recorded_ActionIssued (l : list Action) : recorded (ActionIssued <$> l) = [].
Proof. by induction l. Qed.

(** Each recorded Step is streamed once, in the order of the Steps. *)
Lemma recorded_next (r : AgentRun) :
  recorded (events r) = steps r → recorded (events (next r)) = steps (next r).
Proof.
  intros Hrec. unfold next.
  destruct (state r) as [| |[|a rest]| |]; cbn [events steps]; try done.
  - case_decide; cbn [events steps]; [done|].
    destruct (model (iterations r) (steps r)) as [[|a l]| |];
      cbn [events steps]; try done.
    + rewrite recorded_app, Hrec.
      rewrite (recorded_ActionIssued (a :: l)). by rewrite app_nil_r.
    + rewrite recorded_app, Hrec. simpl. by rewrite app_nil_r.
  - rewrite recorded_app, Hrec. done.
Qed.

Lemma recorded_run_for (n : nat) : recorded (events (run_for n start)) = steps (run_for n start).
Proof.
  unfold run_for. induction n as [|n IH]; simpl; [done|].
  by apply recorded_next.
Qed.

(** The dispatch phase, [j] Actions into the turn. *)
Lemma run_for_dispatching (j : nat) : ∀ (r : AgentRun) (pending : list Action),
  state r = DISPATCHING_TOOLS pending → (j ≤ length pending)%nat →
  run_for j r =
    {| state := DISPATCHING_TOOLS (drop j pending);
       steps := steps r ++ (step_of <$> take j pending);
       iterations := iterations r;
       events := events r ++ (ObservationRecorded <$> (step_of <$> take j pending)) |}.
Proof.
  induction j as [|j IH]; intros r pending Hst Hj.
  - destruct r as [st sts its evs]. simpl in *. subst st.
    by rewrite !app_nil_r.
  - destruct pending as [|a rest]; simpl in Hj; [lia|].
    rewrite run_for_S.
    assert (Hnext : next r = {| state := DISPATCHING_TOOLS rest;
                                steps := steps r ++ [step_of a];
                                iterations := iterations r;
                                events := events r ++ [ObservationRecorded (step_of a)] |}).
    { unfold next. by rewrite Hst. }
    rewrite (IH (next r) rest); [|by rewrite Hnext|lia].
    rewrite Hnext. simpl. by rewrite <- !app_assoc.
Qed.

(** From the dispatch phase the loop comes back to [AWAITING_MODEL]
    once every pending Action has its Step, without calling the model. *)
Lemma run_for_dispatch_turn (r : AgentRun) (pending : list Action) :
  state r = DISPATCHING_TOOLS pending →
  run_for (length pending + 1) r =
    {| state := AWAITING_MODEL;
       steps := steps r ++ (step_of <$> pending);
       iterations := iterations r;
       events := events r ++ (ObservationRecorded <$> (step_of <$> pending)) |}.
Proof.
  intros Hst. rewrite run_for_add.
  rewrite (run_for_dispatching (length pending) r pending Hst) by lia.
  rewrite drop_all, firstn_all. reflexivity.
Qed.

(** A final state stays as it is. *)
Lemma terminal_next (r : AgentRun) : terminal r → next r = r.
Proof. unfold terminal, next. by destruct (state r). Qed.

Lemma terminal_run_for (n : nat) (r : AgentRun) : terminal r → run_for n r = r.
Proof.
  intros Ht. induction n as [|n IH]; [done|].
  by rewrite run_for_S, terminal_next.
Qed.

(** The loop reaches a final state from [AWAITING_MODEL], whatever the
    model answers: each model invocation uses up one of the allowed
    iterations, each turn has finitely many Actions. *)
Lemma awaiting_terminates (budget : nat) : ∀ r : AgentRun,
  state r = AWAITING_MODEL →
  (max_iterations - iterations r ≤ budget)%nat →
  ∃ n, terminal (run_for n r).
Proof.
  induction budget as [|budget IH]; intros r Hst Hb.
  - exists 1%nat. unfold run_for, terminal; simpl. unfold next. rewrite Hst.
    rewrite decide_True by lia. done.
  - destruct (decide (max_iterations ≤ iterations r)%nat) as [Hcap|Hcap].
    { exists 1%nat. unfold run_for, terminal; simpl. unfold next. rewrite Hst.
      by rewrite decide_True. }
    destruct (model (iterations r) (steps r)) as [[|a l]|text|] eqn:Hm.
    + exists 1%nat. unfold run_for, terminal; simpl. unfold next.
      by rewrite Hst, decide_False, Hm.
    + set (r1 := next r).
      assert (Hr1 : r1 = {| state := DISPATCHING_TOOLS (a :: l); steps := steps r;
                            iterations := S (iterations r);
                            events := events r ++ (ActionIssued <$> a :: l) |}).
      { unfold r1, next. by rewrite Hst, decide_False, Hm. }
      destruct (IH (run_for (length (a :: l) + 1) r1)) as [n Hn].
      * rewrite (run_for_dispatch_turn r1 (a :: l)); [done|by rewrite Hr1].
      * rewrite (run_for_dispatch_turn r1 (a :: l)); [|by rewrite Hr1].
        rewrite Hr1. simpl. lia.
      * exists (1 + ((length (a :: l) + 1) + n))%nat.
        rewrite run_for_add. change (run_for 1 r) with r1.
        by rewrite run_for_add.
    + exists 1%nat. unfold run_for, terminal; simpl. unfold next.
      by rewrite Hst, decide_False, Hm.
    + exists 1%nat. unfold run_for, terminal; simpl. unfold next.
      by rewrite Hst, decide_False, Hm.
Qed.

Lemma start_terminates : ∃ n, terminal (run_for n start).
Proof.
  destruct (awaiting_terminates max_iterations (next start)) as [n Hn].
  - reflexivity.
  - simpl. lia.
  - exists (S n). by rewrite run_for_S.
Qed.

Lemma not_finished_otherwise_next (r : AgentRun) :
  never_answers → not_finished_otherwise r → not_finished_otherwise (next r).
Proof.
  intros Hnever. unfold not_finished_otherwise, next.
  destruct (state r) as [| |[|a rest]|?|[|]] eqn:Hst; simpl; try done.
  - intros _. case_decide as Hcap; simpl; [done|].
    destruct (Hnever (iterations r) (steps r)) as (a & l & ->); [lia|]. done.
  - by rewrite Hst.
Qed.

Lemma not_finished_otherwise_run_for (n : nat) :
  never_answers → not_finished_otherwise (run_for n start).
Proof.
  intros Hnever. unfold run_for. induction n as [|n IH]; simpl; [done|].
  by apply not_finished_otherwise_next.
Qed.

Lemma issue_precedes_app (evs new : list event) :
  issue_precedes evs →
  (∀ s, ObservationRecorded s ∈ new → ActionIssued s.1 ∈ evs) →
  issue_precedes (evs ++ new).
Proof.
  intros Hold Hnew j s Hj.
  destruct (decide (j < length evs)%nat) as [Hlt|Hge].
  - rewrite lookup_app_l in Hj by done.
    destruct (Hold j s Hj) as (i & Hi & Hev). exists i. split; [done|].
    rewrite lookup_app_l; [done|lia].
  - rewrite lookup_app_r in Hj by lia.
    apply list_elem_of_lookup_2, Hnew, list_elem_of_lookup_1 in Hj as [i Hev].
    pose proof (lookup_lt_Some _ _ _ Hev) as Hi.
    exists i. split; [lia|]. by rewrite lookup_app_l.
Qed.

Lemma stream_inv_next (r : AgentRun) : stream_inv r → stream_inv (next r).
Proof.
  intros [Hord Hpend]. unfold stream_inv, next, pending_of in *.
  destruct (state r) as [| |[|a rest]| |] eqn:Hst; cbn [events state] in *;
    rewrite ?Hst; try done.
  - case_decide; cbn [events state]; [done|].
    destruct (model (iterations r) (steps r)) as [[|a l]| |];
      cbn [events state]; try done.
    + split.
      * apply issue_precedes_app; [done|]. intros s Hs.
        apply list_elem_of_fmap in Hs as (b & Hb & _). discriminate Hb.
      * intros b Hb. apply elem_of_app. right.
        apply list_elem_of_fmap. by exists b.
    + split; [|intros b Hb; by apply elem_of_nil in Hb].
      apply issue_precedes_app; [done|]. intros s Hs.
      apply list_elem_of_singleton in Hs. discriminate Hs.
  - split.
    + apply issue_precedes_app; [done|]. intros s Hs.
      apply list_elem_of_singleton in Hs. injection Hs as ->.
      apply Hpend. left.
    + intros b Hb. apply elem_of_app. left. apply Hpend. by right.
Qed.

Lemma stream_inv_run_for (n : nat) : stream_inv (run_for n start).
Proof.
  unfold run_for. induction n as [|n IH]; simpl.
  - split; [|intros a Ha; by apply elem_of_nil in Ha].
    intros j s Hj. simpl in Hj. by destruct j.
  - by apply stream_inv_next.
Qed.

Lemma events_next_prefix (r : AgentRun) : events r `prefix_of` events (next r).
Proof.
  unfold next. destruct (state r) as [| |[|a rest]| |]; cbn [events]; try done.
  - case_decide; cbn [events]; [done|].
    destruct (model (iterations r) (steps r)) as [[|a l]| |]; cbn [events];
      try done; by apply prefix_app_r.
  - by apply prefix_app_r.
Qed.

(** C1. In a run finalized with an answer, the Actions of the Steps are
    the Actions issued, in issuance order; each issued Action has its
    Step at its own position, with an Observation keyed by its
    identifier, and that Step was recorded once.  At every transition
    the Step sequence only grows at its end. *)
Theorem done_steps_match_issued (n : nat) (answer : string) :
  state (run_for n start) = DONE answer →
  (steps (run_for n start)).*1 = issued (events (run_for n start))
  ∧ recorded (events (run_for n start)) = steps (run_for n start)
  ∧ (∀ i a, issued (events (run_for n start)) !! i = Some a →
        ∃ o, steps (run_for n start) !! i = Some (a, o)
             ∧ obs_id o = invocation_id a)
  ∧ (∀ r, steps r `prefix_of` steps (next r))
  ∧ (∀ m, steps (run_for m start) `prefix_of` steps (run_for n start)).
Proof.
  intros Hdone.
  destruct (bookkeeping_run_for n) as [Hiss Hids].
  unfold pending_of in Hiss. rewrite Hdone, app_nil_r in Hiss.
  split_and!.
  - done.
  - apply recorded_run_for.
  - intros i a Hi. rewrite Hiss in Hi.
    apply list_lookup_fmap_Some_1 in Hi as ([a' o] & -> & Hs).
    exists o. split; [done|].
    rewrite Forall_lookup in Hids. exact (Hids i (a', o) Hs).
  - apply steps_next_prefix.
  - intros m. destruct (decide (m ≤ n)%nat) as [Hle|Hgt].
    + replace n with (m + (n - m))%nat by lia. rewrite run_for_add.
      apply steps_run_for_prefix.
    + replace m with (n + (m - n))%nat by lia. rewrite run_for_add.
      rewrite terminal_run_for; [done|]. unfold terminal. by rewrite Hdone.
Qed.

(** C2. The loop always reaches a final state and stays there.  The
    model is never invoked beyond the configured count: the loop then
    goes to [FAILED] with the resource-exhaustion error and keeps the
    Steps.  A run whose model never answers within the count ends
    there, and this error is not the protocol error. *)
Theorem iteration_cap_terminates :
  (∃ n, terminal (run_for n start)
        ∧ (∀ m, run_for (n + m) start = run_for n start)
        ∧ (never_answers → state (run_for n start) = FAILED ResourceExhausted))
  ∧ (∀ r, state r = AWAITING_MODEL → (max_iterations ≤ iterations r)%nat →
          state (next r) = FAILED ResourceExhausted ∧ steps (next r) = steps r)
  ∧ FAILED ResourceExhausted ≠ FAILED ProtocolError.
Proof.
  split_and!.
  - destruct start_terminates as [n Hn]. exists n. split_and!.
    + done.
    + intros m. rewrite run_for_add. by apply terminal_run_for.
    + intros Hnever. pose proof (not_finished_otherwise_run_for n Hnever) as Hnot.
      unfold terminal in Hn. unfold not_finished_otherwise in Hnot.
      by destruct (state (run_for n start)) as [| | | |[|]].
  - intros r Hst Hcap. unfold next. rewrite Hst. by rewrite decide_True.
  - done.
Qed.

(** C3. When the execution of a dispatched Action fails, the failure is
    recorded as the Observation of its Step, the dispatch goes on with
    the rest of the turn, and the loop is back in [AWAITING_MODEL] after
    it, with that Step in the sequence; no state on the way is final. *)
Theorem tool_failure_is_observation (r : AgentRun) (a : Action)
    (rest : list Action) (t : Tool) (msg : string) :
  state r = DISPATCHING_TOOLS (a :: rest) →
  registry !! tool_name a = Some t →
  execute t (arguments a) = Failure msg →
  steps (next r)
    = steps r ++ [(a, {| obs_id := invocation_id a; obs_outcome := Failure msg |})]
  ∧ state (next r) = DISPATCHING_TOOLS rest
  ∧ state (run_for (length rest + 2) r) = AWAITING_MODEL
  ∧ (a, {| obs_id := invocation_id a; obs_outcome := Failure msg |})
      ∈ steps (run_for (length rest + 2) r)
  ∧ ∀ j, (j ≤ length rest + 2)%nat → ¬ terminal (run_for j r).
Proof.
  intros Hst Hreg Hexec.
  assert (Hobs : dispatch a = {| obs_id := invocation_id a; obs_outcome := Failure msg |}).
  { unfold dispatch. by rewrite Hreg, Hexec. }
  assert (Hturn := run_for_dispatch_turn r (a :: rest) Hst).
  replace (length (a :: rest) + 1)%nat with (length rest + 2)%nat in Hturn
    by (simpl; lia).
  split_and!.
  - unfold next. by rewrite Hst, Hobs.
  - unfold next. by rewrite Hst.
  - by rewrite Hturn.
  - rewrite Hturn. cbn [steps]. apply elem_of_app. right.
    rewrite fmap_cons. unfold step_of at 1. rewrite Hobs. left.
  - intros j Hj. destruct (decide (j = length rest + 2)%nat) as [->|Hne].
    + rewrite Hturn. unfold terminal. simpl. tauto.
    + rewrite (run_for_dispatching j r (a :: rest) Hst) by (simpl; lia).
      unfold terminal. simpl. tauto.
Qed.

(** C4. A turn in which the model returns the Actions [l]: the next
    state in which the model can be invoked is reached after the [N]
    Steps of [l] have been recorded, in the order of [l]; on the way
    the loop is dispatching and the model is not invoked. *)
Theorem turn_observations_before_model (r : AgentRun) (l : list Action) :
  state r = AWAITING_MODEL →
  (iterations r < max_iterations)%nat →
  model (iterations r) (steps r) = Actions l →
  l ≠ [] →
  state (run_for (length l + 2) r) = AWAITING_MODEL
  ∧ steps (run_for (length l + 2) r) = steps r ++ (step_of <$> l)
  ∧ length (steps (run_for (length l + 2) r)) = (length (steps r) + length l)%nat
  ∧ iterations (run_for (length l + 2) r) = S (iterations r)
  ∧ ∀ j, (1 ≤ j ≤ length l + 1)%nat →
         state (run_for j r) = DISPATCHING_TOOLS (drop (j - 1) l)
         ∧ steps (run_for j r) = steps r ++ (step_of <$> take (j - 1) l)
         ∧ iterations (run_for j r) = S (iterations r).
Proof.
  intros Hst Hcap Hm Hne.
  destruct l as [|a l]; [done|].
  assert (Hnext : next r = {| state := DISPATCHING_TOOLS (a :: l); steps := steps r;
                              iterations := S (iterations r);
                              events := events r ++ (ActionIssued <$> a :: l) |}).
  { unfold next. rewrite Hst, decide_False by lia. by rewrite Hm. }
  assert (Hturn : run_for (length (a :: l) + 2) r
                  = run_for (length (a :: l) + 1) (next r)).
  { replace (length (a :: l) + 2)%nat with (S (length (a :: l) + 1)) by lia.
    apply run_for_S. }
  rewrite Hturn, (run_for_dispatch_turn (next r) (a :: l)) by (by rewrite Hnext).
  rewrite Hnext. cbn [state steps iterations events].
  split_and!; try done.
  - by rewrite length_app, length_fmap.
  - intros j Hj. destruct j as [|j]; [lia|].
    replace (S j - 1)%nat with j by lia. rewrite run_for_S.
    rewrite (run_for_dispatching j (next r) (a :: l)); rewrite ?Hnext;
      [done|done|simpl in *; lia].
Qed.

(** C5. In the stream of a run, every record of an Observation comes
    strictly after the issue of its Action; the stream only grows at its
    end, so a consumer that has seen an event keeps seeing it at the
    same position. *)
Theorem action_issued_before_observation (n j : nat) (s : Step) :
  events (run_for n start) !! j = Some (ObservationRecorded s) →
  (∃ i, (i < j)%nat ∧ events (run_for n start) !! i = Some (ActionIssued s.1))
  ∧ ∀ m, events (run_for n start) `prefix_of` events (run_for (n + m) start).
Proof.
  intros Hj. split.
  - destruct (stream_inv_run_for n) as [Hord _]. exact (Hord j s Hj).
  - intros m. rewrite run_for_add. generalize (run_for n start). clear.
    induction m as [|m IH]; intros r; [done|].
    rewrite run_for_S. etrans; [apply events_next_prefix|apply IH].
Qed.

End Loop.

(** *** A run with the two tools of notebook 09 *)

Definition search_action : Action :=
  {| tool_name := "Searcher"; arguments := "wasps site:homedepot.com";
     invocation_id := 1 |}.

Definition fetch_action : Action :=
  {| tool_name := "WebFetcher"; arguments := "https://www.homedepot.com/";
     invocation_id := 2 |}.

Definition fetcher : Tool :=
  {| description := "useful to fetch the content of a url";
     execute := λ _, Failure "connection refused" |}.

Definition sample_registry : gmap string Tool :=
  {[ "Searcher" := {| description := "useful to search the internet.";
                      execute := λ query, Success ("results for " +:+ query) |};
     "WebFetcher" := fetcher ]}.

(** The model asks for a search and a fetch in its first turn and
    answers in the second. *)
Definition sample_model (i : nat) (history : list Step) : model_output :=
  match i with
  | O => Actions [search_action; fetch_action]
  | S _ => Answer "see the first result"
  end.

Definition sample_run (n : nat) : AgentRun :=
  run_for sample_registry sample_model 5 n start.

Example sample_run_events :
  events (sample_run 6)
  = [ ActionIssued search_action; ActionIssued fetch_action;
      ObservationRecorded
        (search_action,
         {| obs_id := 1; obs_outcome := Success "results for wasps site:homedepot.com" |});
      ObservationRecorded
        (fetch_action, {| obs_id := 2; obs_outcome := Failure "connection refused" |});
      FinalAnswer "see the first result" ].
Proof. vm_compute. reflexivity. Qed.

Lemma done_steps_match_issued_witness :
  state (sample_run 6) = DONE "see the first result"
  ∧ (steps (sample_run 6)).*1 = issued (events (sample_run 6))
  ∧ issued (events (sample_run 6)) = [search_action; fetch_action].
Proof.
  assert (H : state (sample_run 6) = DONE "see the first result").
  { vm_compute. reflexivity. }
  split; [exact H|]. split.
  - exact (proj1 (done_steps_match_issued sample_registry sample_model 5 6
                    "see the first result" H)).
  - vm_compute. reflexivity.
Defined.

Lemma tool_failure_is_observation_witness :
  state (sample_run 3) = DISPATCHING_TOOLS [fetch_action]
  ∧ state (next sample_registry sample_model 5 (sample_run 3)) = DISPATCHING_TOOLS []
  ∧ state (run_for sample_registry sample_model 5 2 (sample_run 3)) = AWAITING_MODEL.
Proof.
  assert (H : state (sample_run 3) = DISPATCHING_TOOLS [fetch_action]).
  { vm_compute. reflexivity. }
  assert (Hreg : sample_registry !! tool_name fetch_action = Some fetcher).
  { vm_compute. reflexivity. }
  assert (Hexec : execute fetcher (arguments fetch_action) = Failure "connection refused").
  { reflexivity. }
  pose proof (tool_failure_is_observation sample_registry sample_model 5
                (sample_run 3) fetch_action [] fetcher "connection refused"
                H Hreg Hexec) as (_ & Hnext & Hback & _).
  split; [exact H|]. split; [exact Hnext|exact Hback].
Defined.

Lemma turn_observations_before_model_witness :
  state (sample_run 1) = AWAITING_MODEL
  ∧ state (run_for sample_registry sample_model 5 4 (sample_run 1)) = AWAITING_MODEL
  ∧ length (steps (run_for sample_registry sample_model 5 4 (sample_run 1))) = 2%nat.
Proof.
  assert (Hst : state (sample_run 1) = AWAITING_MODEL).
  { vm_compute. reflexivity. }
  assert (Hcap : (iterations (sample_run 1) < 5)%nat).
  { vm_compute. lia. }
  assert (Hm : sample_model (iterations (sample_run 1)) (steps (sample_run 1))
               = Actions [search_action; fetch_action]).
  { vm_compute. reflexivity. }
  assert (Hne : [search_action; fetch_action] ≠ []).
  { discriminate. }
  pose proof (turn_observations_before_model sample_registry sample_model 5
                (sample_run 1) [search_action; fetch_action] Hst Hcap Hm Hne)
    as (Hback & _ & Hlen & _).
  split; [exact Hst|]. split; [exact Hback|exact Hlen].
Defined.

Lemma action_issued_before_observation_witness :
  events (sample_run 6) !! 3%nat
    = Some (ObservationRecorded (step_of sample_registry fetch_action))
  ∧ ∃ i, (i < 3)%nat ∧ events (sample_run 6) !! i = Some (ActionIssued fetch_action).
Proof.
  assert (H : events (sample_run 6) !! 3%nat
              = Some (ObservationRecorded (step_of sample_registry fetch_action))).
  { vm_compute. reflexivity. }
  split; [exact H|].
  exact (proj1 (action_issued_before_observation sample_registry sample_model 5
                  6 3 (step_of sample_registry fetch_action) H)).
Defined.

(** A model that never answers: the run ends at the cap. *)
Example never_answering_run :
  state (run_for sample_registry (λ _ _, Actions [search_action]) 2 9 start)
  = FAILED ResourceExhausted.
Proof. vm_compute. reflexivity. Qed.

End AgentLoop.

(** ** The modelled stream read by the notebook's consumer *)

Module Streaming.
Import BingChat AgentLoop.

(** What the consumer reads of an Action. *)
Definition agent_action (a : Action) : AgentAction :=
  {| tool := tool_name a; tool_input := arguments a |}.

Definition observation_text (o : Observation) : string :=
  match obs_outcome o with
  | Success payload => payload
  | Failure description => description
  end.

(** Modelled from the spec: the event-tagged channel (sections 6 and 9),
    one chunk per event, tagged with the key the consumer tests for. *)
Definition chunk_of_event (e : event) : chunk :=
  match e with
  | ActionIssued a => {[ "actions" := VActions [agent_action a] ]}
  | ObservationRecorded s =>
      {[ "steps" := VSteps [ {| action := agent_action s.1;
                                observation := observation_text s.2 |} ] ]}
  | FinalAnswer text => {[ "output" := VOutput text ]}
  end.

(** The lines the consumer prints for the Actions issued. *)
Definition calling_lines (l : list Action) : list string :=
  a ← l; [calling_line (agent_action a); "---"].

Lemma chunk_of_event_one_kind (e : event) : one_kind (chunk_of_event e).
Proof.
  unfold one_kind, kinds, event_keys. rewrite !filter_cons, filter_nil.
  rewrite !has_key_lookup.
  destruct e as [a|s|text]; simpl;
    rewrite ?lookup_singleton_eq, ?lookup_singleton_ne by done; done.
Qed.

Lemma consume_chunk_of_event (e : event) (stdout : list string) :
  consume_chunk (chunk_of_event e) stdout
  = (stdout ++ calling_lines (issued [e]), None).
Proof.
  unfold consume_chunk. rewrite !has_key_lookup.
  destruct e as [a|s|text]; simpl;
    rewrite ?lookup_singleton_eq, ?lookup_singleton_ne by done; simpl;
    by rewrite ?app_nil_r.
Qed.

(** Fed the stream of a run, the consumer never raises and prints the
    call of each Action in issuance order. *)
Lemma consume_events (evs : list event) : ∀ stdout,
  consume (chunk_of_event <$> evs) stdout
  = (stdout ++ calling_lines (issued evs), None).
Proof.
  induction evs as [|e evs IH]; intros stdout.
  - simpl. by rewrite app_nil_r.
  - rewrite fmap_cons. cbn [consume]. rewrite consume_chunk_of_event, IH.
    change (e :: evs) with ([e] ++ evs).
    rewrite issued_app. unfold calling_lines.
    by rewrite bind_app, app_assoc.
Qed.

Example consume_sample_run :
  consume (chunk_of_event <$> events (sample_run 6)) []
  = ([ "Calling Tool: `Searcher` with input `wasps site:homedepot.com`"; "---";
       "Calling Tool: `WebFetcher` with input `https://www.homedepot.com/`"; "---" ],
     None).
Proof. vm_compute. reflexivity. Qed.

End Streaming.

(** ** Notebook 08, cell 14: the log of the load and a failing [to_sql] *)

Module SqlLoadFacts.
Import SqlLoad.

Section Facts.
Context {Row : Type}.

(** The bounds printed by pass [k]: the first pass prints the initial
    [upper = 1000] whatever the number of rows. *)
Definition printed_bound (n : Z) (k : nat) : Z * Z :=
  (1000 * Z.of_nat k,
   match k with
   | O => 1000
   | S _ => Z.min (1000 * (Z.of_nat k + 1)) n
   end).

(** How the [try] block ends: the loop ran to its end, or a call of
    [to_sql] raised and [except] printed the error, or the fuel ran out. *)
Inductive load_end :=
  | Loaded (st : @loop_state Row)
  | Failed (st : @loop_state Row)
  | OutOfFuel.

(** The loop inside [try ... except Exception as e: print(e)], with a
    [to_sql] that may raise: [to_sql_raises i frame] tells whether call
    number [i], handed [frame], raises.  A call that raises inserts
    nothing (pandas runs each call in a transaction of its own); the
    exception leaves the loop before [print] and before the two
    assignments. *)
Fixpoint while_loop_try (to_sql_raises : nat → list Row → bool) (fuel : nat)
    (df : list Row) (limit : Z) (st : loop_state) : load_end :=
  if decide (lower st < limit) then
    match fuel with
    | O => OutOfFuel
    | S fuel' =>
        if to_sql_raises (length (to_sql_calls st))
                         (df_slice df (lower st) (upper st))
        then Failed st
        else while_loop_try to_sql_raises fuel' df limit (loop_body df limit st)
    end
  else Loaded st.

Definition insert_rows_try (to_sql_raises : nat → list Row → bool)
    (fuel : nat) (df : list Row) : load_end :=
  while_loop_try to_sql_raises fuel df (shape0 df) init_state.

Lemma batch_count_lt (n : Z) (k : nat) :
  0 <= n → (k < batch_count n)%nat ↔ 1000 * Z.of_nat k < n.
Proof.
  intros Hn. unfold batch_count.
  assert (H : 0 <= (n + 999) / 1000) by (apply Z.div_pos; lia).
  pose proof (Z.div_mod (n + 999) 1000 ltac:(lia)) as Hdm.
  pose proof (Z.mod_pos_bound (n + 999) 1000 ltac:(lia)) as Hmod.
  split; intros Hk; lia.
Qed.

(** Whatever fuel was enough, the loop ends where [loop_inv] says. *)
Lemma while_loop_end (df : list Row) (fuel : nat) : ∀ k st st',
  loop_inv df k st →
  while_loop fuel df (shape0 df) st = Some st' →
  loop_inv df (batch_count (shape0 df)) st' ∧ shape0 df <= lower st'.
Proof.
  induction fuel as [|fuel IH]; intros k st st' Hinv Hrun; simpl in Hrun;
    case_decide; try done.
  - injection Hrun as <-. destruct Hinv as (? & ? & ? & [?|[? ->]]); [lia|].
    split; [|lia]. unfold loop_inv. split_and!; auto.
  - apply (IH (S k) _ _ (loop_inv_body df k st Hinv ltac:(done)) Hrun).
  - injection Hrun as <-. destruct Hinv as (? & ? & ? & [?|[? ->]]); [lia|].
    split; [|lia]. unfold loop_inv. split_and!; auto.
Qed.

Lemma expected_batch_length (df : list Row) (k : nat) :
  1000 * Z.of_nat k < shape0 df →
  Z.of_nat (length (expected_batch df k))
  = Z.min 1000 (shape0 df - 1000 * Z.of_nat k).
Proof.
  intros Hk. unfold expected_batch, df_slice, shape0 in *.
  rewrite length_take, length_drop. lia.
Qed.

Lemma while_loop_printed (df : list Row) (fuel : nat) : ∀ k st st',
  loop_inv df k st →
  printed st = printed_bound (shape0 df) <$> seq 0 k →
  upper st = (printed_bound (shape0 df) k).2 →
  while_loop fuel df (shape0 df) st = Some st' →
  printed st' = printed_bound (shape0 df) <$> seq 0 (batch_count (shape0 df)).
Proof.
  induction fuel as [|fuel IH]; intros k st st' Hinv Hpr Hup Hrun;
    simpl in Hrun; case_decide as Hlt; try done.
  - injection Hrun as <-.
    destruct Hinv as (_ & _ & _ & [?|[_ ->]]); [lia|done].
  - pose proof (loop_inv_body df k st Hinv Hlt) as Hnext.
    destruct Hinv as (Hc & Ht & Hlo & [(Hk & _ & Hbd & Hcase)|[? _]]); [|lia].
    apply (IH (S k) (loop_body df (shape0 df) st) st'); [| | |done].
    + exact Hnext.
    + unfold loop_body; cbn [printed]. rewrite Hpr, seq_S, fmap_app.
      f_equal. simpl. f_equal. unfold printed_bound. f_equal; [done|].
      exact Hup.
    + unfold loop_body; cbn [upper]. unfold printed_bound; cbn [snd].
      rewrite Hup. unfold printed_bound; cbn [snd].
      destruct k as [|k]; lia.
  - injection Hrun as <-.
    destruct Hinv as (_ & _ & _ & [?|[_ ->]]); [lia|done].
Qed.

(** The log of the load.  When the loop ends, it has printed one pair
    of bounds per pass: [1000k] and [min (1000(k+1)) n] for every pass
    but the first, which prints [0] and [1000] even when the dataframe
    has fewer than 1000 rows. *)
Theorem insert_rows_printed (df : list Row) (fuel : nat) (st : loop_state) :
  insert_rows fuel df = Some st →
  printed st = printed_bound (shape0 df) <$> seq 0 (batch_count (shape0 df))
  ∧ length (printed st) = length (to_sql_calls st)
  ∧ ((0 < shape0 df < 1000) → printed st = [(0, 1000)]).
Proof.
  intros Hrun. unfold insert_rows in Hrun.
  assert (Hpr : printed st
                = printed_bound (shape0 df) <$> seq 0 (batch_count (shape0 df))).
  { apply (while_loop_printed df fuel 0 init_state st); try done.
    apply loop_inv_init. }
  destruct (while_loop_end df fuel 0 init_state st (loop_inv_init df) Hrun)
    as [(Hcalls & _) _].
  split_and!.
  - exact Hpr.
  - by rewrite Hpr, Hcalls, !length_fmap.
  - intros Hn. rewrite Hpr.
    rewrite (batch_count_between (shape0 df) 0) by lia. reflexivity.
Qed.

(** The size of the frames.  No call of [to_sql] gets an empty frame or
    more than 1000 rows, and every call but the last gets exactly 1000. *)
Theorem to_sql_calls_sizes (df : list Row) (fuel : nat) (st : loop_state) :
  insert_rows fuel df = Some st →
  Forall (λ frame, (0 < length frame ≤ 1000)%nat) (to_sql_calls st)
  ∧ ∀ k frame, to_sql_calls st !! k = Some frame →
               (S k < length (to_sql_calls st))%nat →
               length frame = 1000%nat.
Proof.
  intros Hrun. unfold insert_rows in Hrun.
  destruct (while_loop_end df fuel 0 init_state st (loop_inv_init df) Hrun)
    as [(Hcalls & _) _].
  assert (Hn : 0 <= shape0 df) by (unfold shape0; lia).
  split.
  - rewrite Hcalls. apply Forall_fmap, Forall_forall. intros k Hk.
    apply elem_of_seq in Hk. simpl.
    assert (Hlt : 1000 * Z.of_nat k < shape0 df) by (apply batch_count_lt; lia).
    pose proof (expected_batch_length df k Hlt). lia.
  - intros k frame Hk Hlast. rewrite Hcalls in Hk, Hlast.
    rewrite length_fmap, length_seq in Hlast.
    apply list_lookup_fmap_Some_1 in Hk as (k' & -> & Hk').
    apply lookup_seq in Hk' as [-> _]. simpl.
    assert (Hlt : 1000 * Z.of_nat (S k) < shape0 df) by (apply batch_count_lt; lia).
    assert (Hlt' : 1000 * Z.of_nat k < shape0 df) by lia.
    pose proof (expected_batch_length df k Hlt'). lia.
Qed.

Lemma running_frame (df : list Row) (k : nat) (st : loop_state) :
  loop_inv df k st → lower st < shape0 df →
  df_slice df (lower st) (upper st) = expected_batch df k
  ∧ lower st = 1000 * Z.of_nat k
  ∧ length (to_sql_calls st) = k.
Proof.
  intros (Hcalls & _ & Hlo & [(Hk & _ & Hbd & Hcase)|[? _]]) Hlt; [|lia].
  split_and!.
  - unfold expected_batch. rewrite <- Hk.
    rewrite (df_slice_clamp df (lower st) (upper st)) by done.
    f_equal. lia.
  - done.
  - by rewrite Hcalls, length_fmap, length_seq.
Qed.

Lemma while_loop_try_failure (to_sql_raises : nat → list Row → bool)
    (df : list Row) (k : nat) (fuel : nat) : ∀ j st,
  loop_inv df j st →
  length (printed st) = j →
  (j ≤ k < batch_count (shape0 df))%nat →
  to_sql_raises k (expected_batch df k) = true →
  (∀ i, (i < k)%nat → to_sql_raises i (expected_batch df i) = false) →
  (k - j < fuel)%nat →
  ∃ st', while_loop_try to_sql_raises fuel df (shape0 df) st = Failed st'
         ∧ table st' = take (1000 * k) df
         ∧ to_sql_calls st' = expected_batch df <$> seq 0 k
         ∧ length (printed st') = k.
Proof.
  induction fuel as [|fuel IH]; intros j st Hinv Hpr Hjk Hk Hbefore Hfuel; [lia|].
  assert (Hlt : lower st < shape0 df).
  { destruct Hinv as (_ & _ & _ & [?|[_ ->]]); lia. }
  destruct (running_frame df j st Hinv Hlt) as (Hframe & Hlower & Hlen).
  simpl. rewrite decide_True by done. rewrite Hframe, Hlen.
  destruct (decide (j = k)) as [->|Hne].
  - rewrite Hk. exists st. destruct Hinv as (Hcalls & Htab & _).
    split_and!; [done| |done|done].
    rewrite Htab, Hlower. f_equal. lia.
  - rewrite Hbefore by lia.
    apply (IH (S j)); try done; try lia.
    + by apply loop_inv_body.
    + unfold loop_body; cbn [printed]. rewrite length_app. simpl. lia.
Qed.

(** A failing [to_sql].  When call number [k] is the first to raise, the
    [try] block ends there: the table holds the first [1000k] rows of
    the dataframe and no other, the [k] frames before went in as usual
    and [k] lines were printed; the rows from [1000k] on are not
    inserted, and nothing is retried. *)
Theorem insert_rows_try_first_failure (to_sql_raises : nat → list Row → bool)
    (df : list Row) (k fuel : nat) :
  (k < batch_count (shape0 df))%nat →
  to_sql_raises k (expected_batch df k) = true →
  (∀ i, (i < k)%nat → to_sql_raises i (expected_batch df i) = false) →
  (k < fuel)%nat →
  ∃ st, insert_rows_try to_sql_raises fuel df = Failed st
        ∧ table st = take (1000 * k) df
        ∧ to_sql_calls st = expected_batch df <$> seq 0 k
        ∧ length (printed st) = k.
Proof.
  intros Hk Hraise Hbefore Hfuel.
  apply (while_loop_try_failure to_sql_raises df k fuel 0 init_state);
    try done; try lia.
  apply loop_inv_init.
Qed.

End Facts.

Lemma insert_rows_printed_witness :
  ∃ st, insert_rows 2 (seq 0 500) = Some st ∧ printed st = [(0, 1000)].
Proof.
  eexists. split; [vm_compute; reflexivity|].
  refine (proj2 (proj2 (insert_rows_printed (seq 0 500) 2 _ _)) _).
  - vm_compute. reflexivity.
  - vm_compute. split; reflexivity.
Defined.

Lemma to_sql_calls_sizes_witness :
  ∃ st, insert_rows 4 (seq 0 2500) = Some st
        ∧ Forall (λ frame, (0 < length frame ≤ 1000)%nat) (to_sql_calls st).
Proof.
  eexists. split; [vm_compute; reflexivity|].
  refine (proj1 (to_sql_calls_sizes (seq 0 2500) 4 _ _)).
  vm_compute. reflexivity.
Defined.

(** The third call fails on a dataframe of 2500 rows. *)
Lemma insert_rows_try_first_failure_witness :
  ∃ st, insert_rows_try (λ i _, bool_decide (i = 2%nat)) 5 (seq 0 2500) = Failed st
        ∧ table st = seq 0 2000.
Proof.
  destruct (insert_rows_try_first_failure
              (λ i (_ : list nat), bool_decide (i = 2%nat)) (seq 0 2500) 2 5)
    as (st & Hrun & Htab & _).
  - vm_compute. lia.
  - reflexivity.
  - intros i Hi. apply bool_decide_eq_false. lia.
  - lia.
  - exists st. split; [exact Hrun|]. rewrite Htab. vm_compute. reflexivity.
Defined.

End SqlLoadFacts.

(** ** Notebook 08, cell 14: the dict of column types *)

Module CreateTableFacts.
Import CreateTable.

(** [d.get(k)] on an insertion-ordered dict. *)
Fixpoint dict_get (d : list column) (k : string) : option string :=
  match d with
  | [] => None
  | (k', v) :: d' => if decide (k' = k) then Some v else dict_get d' k
  end.

Lemma dict_set_keys (d : list column) (k v : string) :
  (dict_set d k v).*1 = if decide (k ∈ d.*1) then d.*1 else d.*1 ++ [k].
Proof.
  induction d as [|[k' v'] d IH]; cbn [dict_set fmap list_fmap fst].
  - destruct (decide (k ∈ [])) as [Hin|_]; [|done].
    by apply elem_of_nil in Hin.
  - destruct (decide (k' = k)) as [->|Hne]; cbn [fmap list_fmap fst].
    + rewrite decide_True; [done|]. left.
    + rewrite IH. destruct (decide (k ∈ d.*1)) as [Hin|Hnin].
      * rewrite decide_True; [done|]. by right.
      * rewrite decide_False; [done|].
        intros [?|?]%elem_of_cons; [congruence|done].
Qed.

Lemma dict_get_set (d : list column) (k v k' : string) :
  dict_get (dict_set d k v) k' = if decide (k = k') then Some v else dict_get d k'.
Proof.
  induction d as [|[k0 v0] d IH]; simpl.
  - done.
  - destruct (decide (k0 = k)) as [->|Hne]; simpl.
    + by destruct (decide (k = k')).
    + rewrite IH. destruct (decide (k0 = k')) as [->|?]; [|done].
      by rewrite decide_False.
Qed.

Lemma to_dict_snoc (cols : list column) (c : column) :
  to_dict (cols ++ [c]) = dict_set (to_dict cols) c.1 c.2.
Proof. unfold to_dict. by rewrite fold_left_app. Qed.

Lemma dict_get_cons (c : column) (d : list column) (k : string) :
  dict_get (c :: d) k = if decide (c.1 = k) then Some c.2 else dict_get d k.
Proof. by destruct c. Qed.

(** Duplicate column names.  Whatever the names of the columns, the
    dict from which the statement is generated has each name once, has
    the names of the dataframe and no other, and holds for each name
    the dtype of the last column of that name; the statement is made of
    the declarations of its entries. *)
Theorem to_dict_last_dtype (cols : list column) :
  NoDup (to_dict cols).*1
  ∧ (∀ name, name ∈ (to_dict cols).*1 ↔ name ∈ cols.*1)
  ∧ (∀ name, dict_get (to_dict cols) name = dict_get (reverse cols) name)
  ∧ create_table_sql cols =
      match declarations (to_dict cols) with
      | [] => "CREATE TABLE covidtracking)"
      | ds => "CREATE TABLE covidtracking (" +:+ join ", " ds +:+ ")"
      end.
Proof.
  split_and!.
  - induction cols as [|c cols IH] using rev_ind; [constructor|].
    rewrite to_dict_snoc, dict_set_keys. case_decide; [done|].
    apply NoDup_app. split_and!; [done| |apply NoDup_singleton].
    intros x Hx ->%list_elem_of_singleton. done.
  - induction cols as [|c cols IH] using rev_ind; intros name; [done|].
    rewrite to_dict_snoc, dict_set_keys, fmap_app, elem_of_app. simpl.
    rewrite <- IH, list_elem_of_singleton. case_decide as Hin.
    + split; [by left|]. intros [?| ->]; done.
    + by rewrite elem_of_app, list_elem_of_singleton.
  - induction cols as [|c cols IH] using rev_ind; intros name; [done|].
    rewrite to_dict_snoc, dict_get_set, reverse_snoc, dict_get_cons.
    by rewrite IH.
  - unfold create_table_sql. rewrite fold_add_column.
    destruct (declarations (to_dict cols)) as [|d ds].
    + reflexivity.
    + rewrite appended_join, <- string_app_assoc, drop_last2_sep.
      by rewrite string_app_assoc.
Qed.

(** Two columns named [a]: one declaration, where the first one stood,
    with the type of the second. *)
Example create_table_sql_duplicate :
  create_table_sql [("a", "int64"); ("b", "bool"); ("a", "object")]
  = "CREATE TABLE covidtracking (a VARCHAR(MAX), b BIT)".
Proof. reflexivity. Qed.

End CreateTableFacts.

(** ** Notebook 09: more on the consumer and on the display of the answer *)

Module BingChatFacts.
Import BingChat.


(** The lines a chunk makes the consumer print. *)
Definition chunk_lines (c : chunk) : list string :=
  match c !! "actions" with
  | Some (VActions l) => (calling_line <$> l) ++ ["---"]
  | _ => []
  end.

(** A chunk the consumer is written for: it has one of the event keys
    at least, and what it holds under "actions", if anything, is a list
    of actions. *)
Definition well_formed (c : chunk) : Prop :=
  kinds c ≠ [] ∧ ∀ v, c !! "actions" = Some v → ∃ l, v = VActions l.






(** The display after [invoke].  The cell that shows [response["output"]]
    works when the run returned, and shows its answer with the dollar
    signs replaced; after a caught error [response] is a string and the
    cell fails. *)
Theorem display_after_invoke (r : executor_run) (resp : response) :
  invoke_cell r = Finished resp →
  match ending r with
  | inl answer => display_cell resp = Some (replace_dollar answer)
  | inr _ => display_cell resp = None
  end.
Proof.
  unfold invoke_cell. destruct (ending r) as [answer|e].
  - by intros [= <-].
  - destruct (is_Exception e); [|done]. by intros [= <-].
Qed.

Lemma display_after_invoke_witness :
  display_cell (RStr "Bing request failed") = None.
Proof.
  exact (display_after_invoke run_raising_late (RStr "Bing request failed") eq_refl).
Defined.

Lemma consume_chunk_well_formed (c : chunk) (stdout : list string) :
  well_formed c → consume_chunk c stdout = (stdout ++ chunk_lines c, None).
Proof.
  intros [Hkind Hact]. unfold consume_chunk, chunk_lines.
  unfold kinds, event_keys in Hkind.
  rewrite !filter_cons, filter_nil, !has_key_lookup in Hkind.
  destruct (c !! "actions") as [v|].
  - destruct (Hact v eq_refl) as [l ->]. done.
  - rewrite !has_key_lookup.
    destruct (c !! "steps"); [by rewrite app_nil_r|].
    destruct (c !! "output"); [by rewrite app_nil_r|]. done.
Qed.

(** The output of the consumer.  On a stream of well-formed chunks the
    loop ends without exception; it has printed, for each chunk with
    the key "actions" and in the order of the stream, the call of each
    of its actions and then the separator, and nothing for the other
    chunks, also when a chunk with "actions" has other keys. *)
Theorem consume_well_formed (chunks : list chunk) (stdout : list string) :
  Forall well_formed chunks →
  consume chunks stdout = (stdout ++ (chunks ≫= chunk_lines), None).
Proof.
  intros Hall. revert stdout.
  induction Hall as [|c chunks Hc _ IH]; intros stdout; simpl.
  - by rewrite app_nil_r.
  - rewrite (consume_chunk_well_formed c stdout Hc), IH.
    by rewrite app_assoc.
Qed.

Lemma consume_well_formed_witness :
  consume sample_stream ["start"]
  = (["start"; "Calling Tool: `Searcher` with input `wasps`"; "---"], None).
Proof.
  rewrite (consume_well_formed sample_stream ["start"]).
  - vm_compute. reflexivity.
  - repeat constructor; try discriminate;
      intros v Hv; vm_compute in Hv; try discriminate;
      injection Hv as <-; eauto.
Defined.

(** The first chunk without an event key.  When the chunks before it
    are well formed, the loop raises [ValueError] there, with the lines
    of the chunks before it printed; the chunks after it are not read. *)
Theorem consume_first_unknown (before after : list chunk) (c : chunk)
    (stdout : list string) :
  Forall well_formed before →
  kinds c = [] →
  consume (before ++ c :: after) stdout
  = (stdout ++ (before ≫= chunk_lines), Some ValueError).
Proof.
  intros Hall Hc. revert stdout.
  induction Hall as [|b before Hb _ IH]; intros stdout; simpl.
  - pose proof (proj2 (consume_chunk_ValueError c stdout) Hc) as Hraise.
    destruct (consume_chunk c stdout) as [out [e|]] eqn:Hcc; [|done].
    simpl in Hraise. injection Hraise as ->.
    rewrite app_nil_r. f_equal.
    unfold consume_chunk in Hcc. unfold kinds, event_keys in Hc.
    rewrite !filter_cons, filter_nil, !has_key_lookup in Hc.
    rewrite !has_key_lookup in Hcc.
    destruct (c !! "actions"); [done|]. destruct (c !! "steps"); [done|].
    destruct (c !! "output"); [done|]. by injection Hcc as <-.
  - rewrite (consume_chunk_well_formed b stdout Hb), IH.
    by rewrite app_assoc.
Qed.

Lemma consume_first_unknown_witness :
  consume (sample_stream ++ {[ "messages" := VMessages ["?"] ]} :: sample_stream) []
  = (["Calling Tool: `Searcher` with input `wasps`"; "---"], Some ValueError).
Proof.
  rewrite (consume_first_unknown sample_stream sample_stream
             {[ "messages" := VMessages ["?"] ]} []).
  - vm_compute. reflexivity.
  - repeat constructor; try discriminate;
      intros v Hv; vm_compute in Hv; try discriminate;
      injection Hv as <-; eauto.
  - vm_compute. reflexivity.
Defined.




End BingChatFacts.

(** ** The indexing notebooks: the preview of the dataset and the
    status of the indexer *)

Module IndexerNotebook.
Import BingChat.

(** *** [make_clickable] and [preview] *)

(** The double quote character. *)
Definition dquote : string := String "034"%char EmptyString.

(** return '<a href="{0}">{0}</a>'.format(address) *)
Definition make_clickable (address : string) : string :=
  "<a href=" +:+ dquote +:+ address +:+ dquote +:+ ">" +:+ address +:+ "</a>".

(** return text[:30] + '...' *)
Definition preview (text : string) : string :=
  String.substring 0 30 text +:+ "...".

(** *** The status cell *)

#[local] Set Warnings "-register-all".

(** The value of [r.json()]: objects are dicts. *)
Inductive json :=
  | JNull
  | JBool (b : bool)
  | JNum (z : Z)
  | JStr (s : string)
  | JArr (l : list json)
  | JObj (fields : gmap string json).

(** The response of [requests.get]: [body] is [None] when the content
    is not JSON and [r.json()] raises. *)
Record http_response := {
  status_code : Z;
  ok : bool;
  body : option json
}.

(** An argument of [print]. *)
Inductive printed_value :=
  | PInt (z : Z)
  | PBool (b : bool)
  | PStr (s : string)
  | PJson (v : json).

(** A line of output: the arguments of one [print]. *)
Definition line : Type := list printed_value.

(** Code that prints and may raise: from the output so far to the new
    output and a value or the exception raised. *)
Definition py (A : Type) : Type := list line → list line * (A + exception).

Definition ret {A : Type} (a : A) : py A := λ out, (out, inl a).

Definition raise {A : Type} (e : exception) : py A := λ out, (out, inr e).

Definition bind {A B : Type} (m : py A) (f : A → py B) : py B :=
  λ out, match m out with
         | (out', inl a) => f a out'
         | (out', inr e) => (out', inr e)
         end.

#[local] Instance py_ret : MRet py := @ret.
#[local] Instance py_bind : MBind py := λ A B f m, bind m f.

Definition print (l : line) : py unit := λ out, (out ++ [l], inl tt).

(** [try: body except Exception as e: handler] *)
Definition try_except {A : Type} (body : py A) (handler : exception → py A)
    : py A :=
  λ out, match body out with
         | (out', inr e) =>
             if is_Exception e then handler e out' else (out', inr e)
         | r => r
         end.

Definition attribute_error : exception :=
  {| is_Exception := true; str := "object has no attribute 'get'" |}.

Definition json_decode_error : exception :=
  {| is_Exception := true; str := "Expecting value" |}.

(** [v.get(key)]: the value under the key, [None] when the dict has no
    such key; anything but a dict has no [get]. *)
Definition py_get (v : json) (key : string) : py json :=
  match v with
  | JObj fields => ret (default JNull (fields !! key))
  | _ => raise attribute_error
  end.

(** [r.json()] *)
Definition json_of (r : http_response) : py json :=
  match body r with
  | Some v => ret v
  | None => raise json_decode_error
  end.

Definition wait_message : line :=
  [PStr "Wait a few seconds until the process starts and run this cell again."].

(** The cell; [get] is what [requests.get(...)] does, raise or return a
    response. *)
Definition status_cell (get : exception + http_response) : py unit :=
  try_except
    (r ← (match get with inl e => raise e | inr r => ret r end);
     print [PInt (status_code r)];;
     j ← json_of r;
     last ← py_get j "lastResult";
     status ← py_get last "status";
     print [PStr "Status:"; PJson status];;
     j' ← json_of r;
     last' ← py_get j' "lastResult";
     items ← py_get last' "itemsProcessed";
     print [PStr "Items Processed:"; PJson items];;
     print [PBool (ok r)])
    (λ e, print wait_message).

(** The [lastResult] of a response, when its body is an object in which
    [lastResult] is an object. *)
Definition last_result (r : http_response) : option (gmap string json) :=
  match body r with
  | Some (JObj fields) =>
      match fields !! "lastResult" with
      | Some (JObj last) => Some last
      | _ => None
      end
  | _ => None
  end.

Lemma string_app_length_inj (a b x y : string) :
  String.length a = String.length b → a +:+ x = b +:+ y → a = b.
Proof.
  revert b. induction a as [|c a IH]; intros [|c' b] Hlen Heq; try done.
  rewrite !CreateTable.string_app_cons in Heq. injection Heq as -> Heq.
  f_equal. apply IH; [|done]. simpl in Hlen. lia.
Qed.

Lemma make_clickable_length (address : string) :
  String.length (make_clickable address) = (2 * String.length address + 15)%nat.
Proof.
  unfold make_clickable, dquote.
  rewrite !CreateTable.string_length_app. simpl. lia.
Qed.

(** The link gives back the address: two addresses with the same link
    are the same address. *)
Theorem make_clickable_inj (a b : string) :
  make_clickable a = make_clickable b → a = b.
Proof.
  intros Heq.
  assert (Hlen : String.length a = String.length b).
  { pose proof (f_equal String.length Heq) as H.
    rewrite !make_clickable_length in H. lia. }
  unfold make_clickable in Heq.
  apply (inj (String.app "<a href=")) in Heq.
  apply (inj (String.app dquote)) in Heq.
  by apply string_app_length_inj in Heq.
Qed.

Lemma make_clickable_inj_witness :
  make_clickable "https://x.org" = make_clickable "https://x.org"
  ∧ "https://x.org" = "https://x.org".
Proof.
  split; [reflexivity|].
  exact (make_clickable_inj "https://x.org" "https://x.org" eq_refl).
Defined.

Lemma substring_length (m : nat) (s : string) :
  String.length (String.substring 0 m s) = (m `min` String.length s)%nat.
Proof.
  revert s. induction m as [|m IH]; intros [|c s]; simpl; try done.
  by rewrite IH.
Qed.

Lemma substring_all (m : nat) (s : string) :
  (String.length s ≤ m)%nat → String.substring 0 m s = s.
Proof.
  revert s. induction m as [|m IH]; intros [|c s]; simpl; try done; try lia.
  intros H. rewrite IH; [done|lia].
Qed.

(** The preview has the first 30 characters of the text at most, then
    three dots: it is never longer than 33 characters, and a text of 30
    characters or less is shown whole, with the dots all the same. *)
Theorem preview_length (text : string) :
  String.length (preview text) = (30 `min` String.length text + 3)%nat
  ∧ (String.length (preview text) ≤ 33)%nat
  ∧ ((String.length text ≤ 30)%nat → preview text = text +:+ "...").
Proof.
  unfold preview. rewrite CreateTable.string_length_app, substring_length.
  change (String.length "...") with 3%nat. split_and!; [done|lia|].
  intros H. by rewrite substring_all.
Qed.

(** The status cell never ends with an [Exception]: when the request
    raises one it prints the wait message; when a response arrives it
    prints the status code, and then either the status, the number of
    items and [r.ok], or, when the body is not JSON, is not an object,
    or has no object under [lastResult], the wait message alone.  A key
    missing in [lastResult] is printed as [None]. *)
Theorem status_cell_output (get : exception + http_response) (out : list line) :
  status_cell get out =
    match get with
    | inl e =>
        if is_Exception e then (out ++ [wait_message], inl tt)
        else (out, inr e)
    | inr r =>
        (out ++ [PInt (status_code r)] ::
           match last_result r with
           | Some last =>
               [ [PStr "Status:"; PJson (default JNull (last !! "status"))];
                 [PStr "Items Processed:";
                  PJson (default JNull (last !! "itemsProcessed"))];
                 [PBool (ok r)] ]
           | None => [wait_message]
           end,
         inl tt)
    end.
Proof.
  unfold status_cell, try_except, mbind, py_bind, bind, last_result, json_of.
  destruct get as [e|r]; simpl.
  - unfold raise, print. destruct (is_Exception e); done.
  - unfold print, py_get, ret, raise.
    destruct (body r) as [[|b|z|s|l|fields]|]; simpl;
      rewrite <- ?app_assoc; try done.
    destruct (fields !! "lastResult") as [[|b|z|s|l|last]|]; simpl;
      rewrite <- ?app_assoc; done.
Qed.

(** The indexer has not run yet: no [lastResult] in the status. *)
Example status_cell_not_started :
  status_cell (inr {| status_code := 200; ok := true;
                      body := Some (JObj {[ "name" := JStr "srch-indexer-csv";
                                            "lastResult" := JNull ]}) |}) []
  = ([[PInt 200]; wait_message], inl tt).
Proof. vm_compute. reflexivity. Qed.

End IndexerNotebook.
